(** * Reversible action history ([source/ts/control/history.ts])

    A shallow embedding of the [History] class: its pending buffer, its
    committed and undone stacks, the auto-group timer handle and the
    action lock, together with the part of the JavaScript runtime the class
    relies on (array objects shared by reference, [setTimeout] and
    [clearTimeout], exceptions with [try]/[finally]). *)

From Stdlib Require Import ZArith String.
From stdpp Require Import base option list strings.

Local Open Scope Z_scope.
Local Open Scope string_scope.
Local Open Scope list_scope.

(** ** Data model *)

(** Values of TypeScript type [any] that travel in parameter lists. *)
Inductive any : Type :=
| Num (n : Z)
| Str (s : string)
| Bool (b : bool)
| Null
| Undefined.

(** One side of an [IHistoricAction]: [{ name; parameters }]. *)
Record Descriptor : Type := mkDescriptor {
  name : string;
  parameters : list any
}.

Record IHistoricAction : Type := mkAction {
  forward : Descriptor;
  backward : Descriptor
}.

(** Arrays of actions are JavaScript objects: [_actions], the entries of
    [_action_groups] and the entries of [_undone] may be the very same
    array.  They live in a store and are named by their index in it. *)
Abbreviation ref := nat.
Abbreviation handle := nat.

(** A registry call [invoke(name, parameters)] as it is observed outside. *)
Definition Invocation : Type := string * list any.

Record State : Type := mkState {
  (* the fields of the History instance *)
  _actions : ref;
  _action_groups : list ref;
  _undone : list ref;
  _autogroup : option handle;
  _action_lock : bool;
  (* the runtime around it *)
  store : list (list IHistoricAction);
  timeouts : list (handle * Z);
  next_handle : handle;
  invoked : list Invocation
}.

Definition set_actions (r : ref) (s : State) : State :=
  mkState r (_action_groups s) (_undone s) (_autogroup s) (_action_lock s)
          (store s) (timeouts s) (next_handle s) (invoked s).
Definition set_action_groups (g : list ref) (s : State) : State :=
  mkState (_actions s) g (_undone s) (_autogroup s) (_action_lock s)
          (store s) (timeouts s) (next_handle s) (invoked s).
Definition set_undone (u : list ref) (s : State) : State :=
  mkState (_actions s) (_action_groups s) u (_autogroup s) (_action_lock s)
          (store s) (timeouts s) (next_handle s) (invoked s).
Definition set_autogroup (h : option handle) (s : State) : State :=
  mkState (_actions s) (_action_groups s) (_undone s) h (_action_lock s)
          (store s) (timeouts s) (next_handle s) (invoked s).
Definition set_action_lock (b : bool) (s : State) : State :=
  mkState (_actions s) (_action_groups s) (_undone s) (_autogroup s) b
          (store s) (timeouts s) (next_handle s) (invoked s).
Definition set_store (h : list (list IHistoricAction)) (s : State) : State :=
  mkState (_actions s) (_action_groups s) (_undone s) (_autogroup s)
          (_action_lock s) h (timeouts s) (next_handle s) (invoked s).
Definition set_timeouts (t : list (handle * Z)) (s : State) : State :=
  mkState (_actions s) (_action_groups s) (_undone s) (_autogroup s)
          (_action_lock s) (store s) t (next_handle s) (invoked s).
Definition set_next_handle (n : handle) (s : State) : State :=
  mkState (_actions s) (_action_groups s) (_undone s) (_autogroup s)
          (_action_lock s) (store s) (timeouts s) n (invoked s).
Definition set_invoked (l : list Invocation) (s : State) : State :=
  mkState (_actions s) (_action_groups s) (_undone s) (_autogroup s)
          (_action_lock s) (store s) (timeouts s) (next_handle s) l.

(** The contents of the array behind a reference. *)
Definition deref (s : State) (r : ref) : list IHistoricAction :=
  default [] (store s !! r).

(** What [this._actions] currently holds. *)
Definition pending (s : State) : list IHistoricAction := deref s (_actions s).

(** ** Computations: state, exceptions *)

(** A method either returns, or throws a value, or ([Stuck]) asks for a
    handler nested deeper than the model unrolls; [Stuck] is shown below
    never to happen. *)
Inductive outcome (A : Type) : Type :=
| Return (a : A)
| Throw (e : any)
| Stuck.
Arguments Return {A} a.
Arguments Throw {A} e.
Arguments Stuck {A}.

Definition M (A : Type) : Type := State -> outcome A * State.

Definition ret {A} (a : A) : M A := fun s => (Return a, s).

Definition bind {A B} (c : M A) (k : A -> M B) : M B :=
  fun s =>
    match c s with
    | (Return a, s') => k a s'
    | (Throw e, s') => (Throw e, s')
    | (Stuck, s') => (Stuck, s')
    end.

Definition gets {A} (f : State -> A) : M A := fun s => (Return (f s), s).
Definition modify (f : State -> State) : M unit := fun s => (Return tt, f s).
Definition throw {A} (e : any) : M A := fun s => (Throw e, s).
Definition stuck {A} : M A := fun s => (Stuck, s).

(** [try { body } finally { final }]: [final] runs however [body] ends, and
    the way [body] ended is what the whole statement does. *)
Definition try_finally {A} (body : M A) (final : M unit) : M A :=
  fun s =>
    match body s with
    | (Stuck, s') => (Stuck, s')
    | (r, s') =>
        match final s' with
        | (Return _, s'') => (r, s'')
        | (Throw e, s'') => (Throw e, s'')
        | (Stuck, s'') => (Stuck, s'')
        end
    end.

Declare Scope hist_scope.
Delimit Scope hist_scope with hist.
Notation "'let*' x ':=' c 'in' k" := (bind c (fun x => k))
  (at level 10, x name, c at level 100, k at level 200) : hist_scope.
Notation "c >> k" := (bind c (fun _ => k))
  (at level 65, right associativity) : hist_scope.
Local Open Scope hist_scope.

(** ** The runtime: arrays and timers *)

(** [[]]: a new, empty array object. *)
Definition array_new : M ref :=
  fun s => (Return (length (store s)), set_store (store s ++ [[]]) s).

(** [arr.length]. *)
Definition array_length (r : ref) : M nat :=
  gets (fun s => length (deref s r)).

(** [arr.push(a)]: in place. *)
Definition array_push (r : ref) (a : IHistoricAction) : M unit :=
  modify (fun s => set_store (alter (fun l => l ++ [a]) r (store s)) s).

(** [arr.reverse()]: in place. *)
Definition array_reverse (r : ref) : M unit :=
  modify (fun s => set_store (alter reverse r (store s)) s).

(** [arr[k]], if [k in arr]. *)
Definition array_get (r : ref) (k : nat) : M (option IHistoricAction) :=
  gets (fun s => deref s r !! k).

(** [arr.forEach(f)]: the length is read once, every element is read when
    its turn comes. *)
Fixpoint forEach_from (r : ref) (f : IHistoricAction -> M unit)
    (k n : nat) : M unit :=
  match n with
  | O => ret tt
  | S n' =>
      let* x := array_get r k in
      match x with Some a => f a | None => ret tt end >>
      forEach_from r f (S k) n'
  end.

Definition forEach (r : ref) (f : IHistoricAction -> M unit) : M unit :=
  let* len := array_length r in
  forEach_from r f 0 len.

(** [pop()] on the stacks [_action_groups] and [_undone]: the last element
    is the top. *)
Definition pop {A} (l : list A) : option (list A * A) :=
  match reverse l with
  | [] => None
  | x :: r => Some (reverse r, x)
  end.

(** [setTimeout(callback, delay)]: the only callback the class ever
    schedules is [() => this.group_actions()], so a scheduled timeout is
    its handle and its delay. *)
Definition setTimeout (delay : Z) : M handle :=
  fun s =>
    (Return (next_handle s),
     set_next_handle (S (next_handle s))
       (set_timeouts (timeouts s ++ [(next_handle s, delay)]) s)).

Definition scheduled (h : handle) (s : State) : bool :=
  existsb (fun t => Nat.eqb (fst t) h) (timeouts s).

(** [clearTimeout(handle)]: a no-op when the handle is not scheduled. *)
Definition clearTimeout (h : handle) : M unit :=
  modify (fun s =>
    set_timeouts (filter (fun t => fst t <> h) (timeouts s)) s).

(** ** The command registry *)

(** Modelled from the spec: a call that a command handler, which is code
    of the host and of module [./map], may make back into the history
    while it runs.  [CallUndo] and [CallRedo] are also what the handlers
    do that the constructor registers as [history.undo] and
    [history.redo]. *)
Inductive Call : Type :=
| CallPush (forward_name : string) (forward_params : list any)
           (backward_name : string) (backward_params : list any)
           (autogroup_delay : option Z)
| CallGroup
| CallUndo
| CallRedo.

(** Modelled from the spec: the command registry ([keymap.Map], module
    [./map]) is a collaborator whose code lies outside this file: an opaque
    dispatcher from a name and a parameter list to an effect, which may
    fail.  What a handler does to the editor is recorded as the invocation
    itself; what it does to the history is the sequence of calls it makes
    on the public methods; [raises] is the value it throws, if any. *)
Record Handler : Type := mkHandler {
  calls : list Call;
  raises : option any
}.

Definition Map : Type := string -> list any -> Handler.

(** The shape of [this._map.invoke]. *)
Definition Invoke : Type := string -> list any -> M unit.

(** ** The methods of [History] *)

(** The state the constructor leaves: [_actions] is array 0. *)
Definition init : State :=
  mkState 0%nat [] [] None false [[]] [] 1%nat [].

Definition push_action (forward_name : string) (forward_params : list any)
    (backward_name : string) (backward_params : list any)
    (autogroup_delay : option Z) : M unit :=
  let* locked := gets _action_lock in
  if (locked : bool) then ret tt else
  let* acts := gets _actions in
  array_push acts
    (mkAction (mkDescriptor forward_name forward_params)
              (mkDescriptor backward_name backward_params)) >>
  modify (set_undone []) >>
  (* If a delay is defined, prepare a timeout to autogroup. *)
  match autogroup_delay with
  | Some delay =>
      (* If another timeout was already set, cancel it. *)
      let* ag := gets _autogroup in
      match ag with
      | Some h => clearTimeout h
      | None => ret tt
      end >>
      (* Set a new timeout. *)
      let* h := setTimeout delay in
      modify (set_autogroup (Some h))
  | None => ret tt
  end.

Definition group_actions : M unit :=
  modify (set_autogroup None) >>
  let* locked := gets _action_lock in
  if (locked : bool) then ret tt else
  let* acts := gets _actions in
  modify (fun s => set_action_groups (_action_groups s ++ [acts]) s) >>
  let* fresh := array_new in
  modify (set_actions fresh) >>
  modify (set_undone []).

(** The opening of [undo] (lines 110-114): if a timeout is set, group
    now. *)
Definition undo_prelude : M unit :=
  let* ag := gets _autogroup in
  match ag with
  | Some h => clearTimeout h >> group_actions
  | None => ret tt
  end.

(** The part of [undo] that picks what to undo (lines 116-124); [None] is
    the early [return true]. *)
Definition select_undo : M (option ref) :=
  let* acts := gets _actions in
  let* len := array_length acts in
  if (0 <? len)%nat then ret (Some acts) else
  let* groups := gets _action_groups in
  match pop groups with
  | Some (rest, top) =>
      modify (set_action_groups rest) >>
      array_reverse top >>
      ret (Some top)
  | None => ret None
  end.

(** The guarded replay, written out once in [undo] (lines 127-136, with
    [side = backward]) and once in [redo] (lines 151-160, with
    [side = forward]). *)
Definition replay (invoke : Invoke) (unit_ : ref)
    (side : IHistoricAction -> Descriptor) : M unit :=
  let* locked := gets _action_lock in
  if (locked : bool) then ret tt else
  modify (set_action_lock true) >>
  try_finally
    (forEach unit_ (fun action =>
       invoke (name (side action)) (parameters (side action))))
    (modify (set_action_lock false)).

(** [undo] up to the point where the unit to undo is known (lines
    110-124). *)
Definition undo_select : M (option ref) := undo_prelude >> select_undo.

Definition undo_with (invoke : Invoke) : M bool :=
  let* sel := undo_select in
  match sel with
  | None => ret true
  | Some undo =>
      (* Undo the actions. *)
      replay invoke undo backward >>
      (* Allow the action to be redone. *)
      modify (fun s => set_undone (_undone s ++ [undo]) s) >>
      ret true
  end.

Definition redo_with (invoke : Invoke) : M bool :=
  let* undone := gets _undone in
  match pop undone with
  | Some (rest, redo) =>
      modify (set_undone rest) >>
      (* Redo the actions. *)
      replay invoke redo forward >>
      (* Allow the action to be undone. *)
      modify (fun s => set_action_groups (_action_groups s ++ [redo]) s) >>
      ret true
  | None => ret true
  end.

(** A call made by a handler, given what [invoke] means inside it. *)
Definition run_call (invoke : Invoke) (c : Call) : M unit :=
  match c with
  | CallPush fn fp bn bp d => push_action fn fp bn bp d
  | CallGroup => group_actions
  | CallUndo => undo_with invoke >> ret tt
  | CallRedo => redo_with invoke >> ret tt
  end.

Fixpoint run_calls (invoke : Invoke) (cs : list Call) : M unit :=
  match cs with
  | [] => ret tt
  | c :: cs' => run_call invoke c >> run_calls invoke cs'
  end.

(** One handler run: the invocation is observed, the handler calls back
    into the history, then returns or throws. *)
Definition run_handler (inner : Invoke) (h : Handler) (n : string)
    (ps : list any) : M unit :=
  modify (fun s => set_invoked (invoked s ++ [(n, ps)]) s) >>
  run_calls inner (calls h) >>
  match raises h with
  | Some e => throw e
  | None => ret tt
  end.

(** [this._map.invoke], with handlers nested at most [depth] deep. *)
Fixpoint invoke_depth (depth : nat) (m : Map) : Invoke :=
  match depth with
  | O => fun _ _ => stuck
  | S d => fun n ps => run_handler (invoke_depth d m) (m n ps) n ps
  end.

(** While a handler runs the lock is held, so a handler never starts a
    replay of its own and depth 1 is all there is (see
    [undo_depth_irrelevant] and [redo_depth_irrelevant]). *)
Definition map_invoke (m : Map) : Invoke := invoke_depth 1 m.

Definition undo (m : Map) : M bool := undo_with (map_invoke m).
Definition redo (m : Map) : M bool := redo_with (map_invoke m).

(** The timeout [h] fires: it leaves the runtime's queue and its callback
    [() => this.group_actions()] runs.  A handle that is not scheduled
    cannot fire. *)
Definition fire (h : handle) : M unit :=
  let* armed := gets (scheduled h) in
  if (armed : bool) then clearTimeout h >> group_actions else ret tt.

(** What is left of a computation: its final state and its result. *)
Definition exec {A} (c : M A) (s : State) : State := snd (c s).
Definition result {A} (c : M A) (s : State) : outcome A := fst (c s).

(** ** Notions used in the statements *)

(** The array behind [_actions] exists. *)
Definition live (s : State) : Prop := (_actions s < length (store s))%nat.

(** A nested [undo] reverses only an entry of [_action_groups], and only
    when the pending buffer is empty: it cannot reach the array [r] while
    something is pending or [r] is no entry of the two stacks. *)
Definition unshared (r : ref) (s : State) : Prop :=
  pending s <> [] \/ ((r ∉ _action_groups s) /\ (r ∉ _undone s)).

(** No handler of the registry calls [undo]. *)
Definition calm (m : Map) : Prop :=
  forall n ps, CallUndo ∉ calls (m n ps).

(** No handler can reverse the array [r] in place while it is replayed. *)
Definition stable (m : Map) (r : ref) (s : State) : Prop :=
  calm m \/ unshared r s.

(** The footprint of handler code that ran under the lock and was seen
    making the invocations [i]. *)
Record handler_step (i : list Invocation) (s s' : State) : Prop :=
  mk_handler_step {
  hs_lock : _action_lock s' = true;
  hs_actions : _actions s' = _actions s;
  hs_pending : pending s' = pending s;
  hs_invoked : invoked s' = invoked s ++ i;
  hs_next : next_handle s' = next_handle s;
  hs_length : length (store s') = length (store s);
  hs_timer : _autogroup s = None ->
             _autogroup s' = None /\ timeouts s' = timeouts s;
  hs_unit : forall r, unshared r s -> unshared r s' /\ deref s' r = deref s r
}.

Abbreviation locked_step := (handler_step []).

(** How a handler run ends. *)
Definition outcome_of (r : option any) : outcome unit :=
  match r with
  | Some e => Throw e
  | None => Return tt
  end.

(** What a replay over the descriptors [ds] shows outside: the invocations
    made, up to and including the first that fails, and the value thrown. *)
Fixpoint replay_trace (m : Map) (ds : list Descriptor)
    : list Invocation * option any :=
  match ds with
  | [] => ([], None)
  | d :: ds' =>
      match raises (m (name d) (parameters d)) with
      | Some e => ([(name d, parameters d)], Some e)
      | None =>
          let (tr, r) := replay_trace m ds' in
          ((name d, parameters d) :: tr, r)
      end
  end.

(** The invocation a descriptor stands for. *)
Definition invocation_of (d : Descriptor) : Invocation :=
  (name d, parameters d).

(** The callback handed to [forEach] by [undo] ([side = backward]) and by
    [redo] ([side = forward]). *)
Definition callback (invoke : Invoke) (side : IHistoricAction -> Descriptor)
    : IHistoricAction -> M unit :=
  fun action => invoke (name (side action)) (parameters (side action)).

(** How [undo] and [redo] go on from the replay: after a normal end the
    unit is pushed ([k]); after a failure the rest of the method is
    skipped. *)
Definition after_replay (o : outcome unit) (k : State -> State) (s : State)
    : outcome bool * State :=
  match o with
  | Return _ => (Return true, k s)
  | Throw e => (Throw e, s)
  | Stuck => (Stuck, s)
  end.

(** ** Reachable states *)

(** The states in which a method of [History] can be called: between two
    tasks of the event loop, where the host calls a method or a timeout
    fires, and in the middle of a replay, where the handler being invoked
    calls back. *)
Inductive reachable : State -> Prop :=
| reach_init : reachable init
| reach_call m c s :
    reachable s -> reachable (exec (run_call (map_invoke m) c) s)
| reach_fire h s :
    reachable s -> _action_lock s = false -> reachable (exec (fire h) s)
| reach_undo_replay s r s1 :
    reachable s -> _action_lock s = false ->
    undo_select s = (Return (Some r), s1) ->
    reachable (set_action_lock true s1)
| reach_redo_replay s rest r :
    reachable s -> _action_lock s = false ->
    _undone s = rest ++ [r] ->
    reachable (set_action_lock true (set_undone rest s))
| reach_invoke n ps s :
    reachable s -> _action_lock s = true ->
    reachable (set_invoked (invoked s ++ [(n, ps)]) s).

(** While the lock is held, and while something can be redone, no
    auto-group timeout is on record. *)
Definition lock_inv (s : State) : Prop :=
  (_action_lock s = true -> _autogroup s = None) /\
  (_undone s <> [] -> _autogroup s = None).

(** ** Concrete runs *)

(** A registry whose handlers neither call back nor fail. *)
Definition idle : Map := fun _ _ => mkHandler [] None.

Definition action_A : IHistoricAction :=
  mkAction (mkDescriptor "set_x" [Num 1]) (mkDescriptor "set_x" [Num 0]).
Definition action_B : IHistoricAction :=
  mkAction (mkDescriptor "set_y" [Num 2]) (mkDescriptor "set_y" [Num 0]).

(** push A; push B; [group_actions()]; [undo()]; [redo()]. *)
Definition scenario_pushed : State :=
  exec (push_action "set_y" [Num 2] "set_y" [Num 0] None)
    (exec (push_action "set_x" [Num 1] "set_x" [Num 0] None) init).
Definition scenario_grouped : State := exec group_actions scenario_pushed.
Definition scenario_undone : State := exec (undo idle) scenario_grouped.
Definition scenario_redone : State := exec (redo idle) scenario_undone.

(** push A; [undo()]; push B. *)
Definition pushed_A : State :=
  exec (push_action "set_x" [Num 1] "set_x" [Num 0] None) init.
Definition pushed_A_undone : State := exec (undo idle) pushed_A.
Definition pushed_A_undone_pushed_B : State :=
  exec (push_action "set_y" [Num 2] "set_y" [Num 0] None) pushed_A_undone.

(** push A with an auto-group delay; [group_actions()]; the timeout fires. *)
Definition armed : State :=
  exec (push_action "set_x" [Num 1] "set_x" [Num 0] (Some 500)) init.
Definition armed_grouped : State := exec group_actions armed.
Definition armed_grouped_fired : State := exec (fire 1) armed_grouped.

(** The state in which the handler of A's backward command runs when
    [undo()] replays the pending buffer of [pushed_A]. *)
Definition replaying_A : State := set_action_lock true pushed_A.

(** A registry in which the handler of [set_x] fails. *)
Definition failing : Map :=
  fun n _ =>
    if String.eqb n "set_x" then mkHandler [] (Some (Str "boom"))
    else mkHandler [] None.

(** A registry whose handlers record what they do, as an editor command
    would: each calls [push_action] while it runs. *)
Definition recording : Map :=
  fun n ps => mkHandler [CallPush n ps n ps None] None.



(** ** Notions used for the rest of the class *)

(** No handler of the registry calls back into the history. *)
Definition silent (m : Map) : Prop :=
  forall n ps, calls (m n ps) = [].

(** Handles are handed out in increasing order, and the handle on record
    is the handle of a scheduled timeout. *)
Definition timers_ok (s : State) : Prop :=
  (forall t, t ∈ timeouts s -> (fst t < next_handle s)%nat) /\
  (forall h, _autogroup s = Some h -> scheduled h s = true).

(** The state of [scenario_undone] as a handler sees it, were one to run
    there: the lock held, one unit to redo. *)
Definition locked_undone : State := set_action_lock true scenario_undone.

(** A call by which a handler records or commits, as commands of the
    editor do, and does not undo or redo. *)
Definition recording_call (c : Call) : Prop :=
  match c with
  | CallPush _ _ _ _ _ | CallGroup => True
  | CallUndo | CallRedo => False
  end.

(** Every call of every handler is a recording call. *)
Definition inert (m : Map) : Prop :=
  forall n ps, Forall recording_call (calls (m n ps)).

(** The registry with the same failures and no call back. *)
Definition mute (m : Map) : Map :=
  fun n ps => mkHandler [] (raises (m n ps)).

(** push A with a delay; [group_actions()]; [undo()]; the timeout fires. *)
Definition armed_grouped_undone : State := exec (undo idle) armed_grouped.
Definition armed_grouped_undone_fired : State :=
  exec (fire 1) armed_grouped_undone.

(** Every array the instance refers to exists: [_actions] and the entries
    of the two stacks are indices of the store. *)
Definition allocated (s : State) : Prop :=
  live s /\
  Forall (fun r => r < length (store s))%nat (_action_groups s) /\
  Forall (fun r => r < length (store s))%nat (_undone s).

(** A computation that leaves no reference dangling and removes no array
    from the store. *)
Definition keeps_allocated {A} (c : M A) : Prop :=
  forall s, allocated s ->
    allocated (exec c s) /\ (length (store s) <= length (store (exec c s)))%nat.

(** * Properties *)

(** ** Stacks *)

Lemma pop_nil {A} : pop (@nil A) = None.
Proof. reflexivity. Qed.

Lemma pop_snoc {A} (l : list A) (x : A) : pop (l ++ [x]) = Some (l, x).
Proof.
  unfold pop. rewrite reverse_app, reverse_singleton. simpl.
  now rewrite reverse_involutive.
Qed.

Lemma pop_Some {A} (l rest : list A) (x : A) :
  pop l = Some (rest, x) -> l = rest ++ [x].
Proof.
  unfold pop. destruct (reverse l) as [|y r] eqn:E; [discriminate|].
  intros [= <- <-]. rewrite <- (reverse_involutive l), E.
  now rewrite reverse_cons.
Qed.

Lemma pop_None {A} (l : list A) : pop l = None -> l = [].
Proof.
  unfold pop. destruct (reverse l) as [|y r] eqn:E; [|discriminate].
  intros _. rewrite <- (reverse_involutive l), E. reflexivity.
Qed.

Lemma pop_cases {A} (l : list A) :
  (l = [] /\ pop l = None) \/ (exists rest x, l = rest ++ [x] /\ pop l = Some (rest, x)).
Proof.
  destruct (pop l) as [[rest x]|] eqn:E.
  - right. exists rest, x. split; [now apply pop_Some|reflexivity].
  - left. split; [now apply pop_None|reflexivity].
Qed.

(** ** What a handler can do while the lock is held *)

Lemma locked_step_refl s : _action_lock s = true -> locked_step s s.
Proof. intros H. split; auto. now rewrite app_nil_r. Qed.

Lemma handler_step_trans i j s1 s2 s3 :
  handler_step i s1 s2 -> handler_step j s2 s3 -> handler_step (i ++ j) s1 s3.
Proof.
  intros [] []. split; try congruence.
  - rewrite hs_invoked1, hs_invoked0. now rewrite app_assoc.
  - intros H. destruct (hs_timer0 H) as [H1 H2].
    destruct (hs_timer1 H1). split; congruence.
  - intros r H. destruct (hs_unit0 r H) as [H1 H2].
    destruct (hs_unit1 r H1). split; congruence.
Qed.

Lemma locked_step_trans s1 s2 s3 :
  locked_step s1 s2 -> locked_step s2 s3 -> locked_step s1 s3.
Proof. apply (handler_step_trans [] []). Qed.

Lemma deref_alter (f : list IHistoricAction -> list IHistoricAction) r r' s :
  f [] = [] ->
  deref (set_store (alter f r (store s)) s) r' =
  if decide (r = r') then f (deref s r') else deref s r'.
Proof.
  intros Hf. unfold deref. cbn [store set_store].
  destruct (decide (r = r')) as [->|Hne].
  - rewrite list_lookup_alter_eq.
    destruct (store s !! r') as [l|]; cbn; [reflexivity | now rewrite Hf].
  - now rewrite list_lookup_alter_ne.
Qed.

Lemma push_action_locked fn fp bn bp d s :
  _action_lock s = true -> push_action fn fp bn bp d s = (Return tt, s).
Proof. intros H. unfold push_action, bind, gets. simpl. now rewrite H. Qed.

(** Under the lock [group_actions] has already assigned [_autogroup = null]
    (line 98) when it returns (line 99). *)
Lemma group_actions_locked s :
  _action_lock s = true ->
  group_actions s = (Return tt, set_autogroup None s).
Proof. intros H. unfold group_actions, bind, gets, modify. simpl. now rewrite H. Qed.

Lemma group_actions_unlocked s :
  _action_lock s = false ->
  group_actions s =
  (Return tt,
   mkState (length (store s)) (_action_groups s ++ [_actions s]) [] None
     false (store s ++ [[]]) (timeouts s) (next_handle s) (invoked s)).
Proof.
  intros Hl. unfold group_actions, bind, gets, modify, array_new. simpl.
  rewrite Hl. unfold set_undone, set_actions. simpl. now rewrite Hl.
Qed.

Lemma replay_locked invoke r side s :
  _action_lock s = true -> replay invoke r side s = (Return tt, s).
Proof. intros H. unfold replay, bind, gets. simpl. now rewrite H. Qed.

Lemma bind_Return {A B} (c : M A) (k : A -> M B) s a s' :
  c s = (Return a, s') -> bind c k s = k a s'.
Proof. intros H. unfold bind. now rewrite H. Qed.

Lemma bind_Throw {A B} (c : M A) (k : A -> M B) s e s' :
  c s = (Throw e, s') -> bind c k s = (Throw e, s').
Proof. intros H. unfold bind. now rewrite H. Qed.

Lemma pending_nil_length s : pending s = [] -> (0 <? length (deref s (_actions s)))%nat = false.
Proof. unfold pending. intros ->. reflexivity. Qed.

Lemma pending_cons_length s : pending s <> [] -> (0 <? length (deref s (_actions s)))%nat = true.
Proof. unfold pending. destruct (deref s (_actions s)); [congruence|reflexivity]. Qed.

Lemma undo_prelude_None s :
  _autogroup s = None -> undo_prelude s = (Return tt, s).
Proof. intros H. unfold undo_prelude, bind, gets. simpl. now rewrite H. Qed.

Lemma undo_prelude_locked s :
  _action_lock s = true ->
  exists s', undo_prelude s = (Return tt, s') /\ locked_step s s' /\
             _autogroup s' = None /\ _action_groups s' = _action_groups s /\
             _undone s' = _undone s /\ store s' = store s.
Proof.
  intros Hl. unfold undo_prelude, bind, gets. simpl.
  destruct (_autogroup s) as [h|] eqn:E.
  - unfold clearTimeout, modify. rewrite group_actions_locked by assumption.
    eexists; split; [reflexivity|].
    repeat split; simpl; rewrite ?app_nil_r; auto; congruence.
  - exists s. repeat split; rewrite ?app_nil_r; auto.
Qed.

Lemma select_undo_pending s :
  pending s <> [] -> select_undo s = (Return (Some (_actions s)), s).
Proof.
  intros H. unfold select_undo, bind, gets, array_length. simpl.
  now rewrite pending_cons_length.
Qed.

Lemma select_undo_group s gs r :
  pending s = [] -> _action_groups s = gs ++ [r] ->
  select_undo s =
  (Return (Some r), set_store (alter reverse r (store s)) (set_action_groups gs s)).
Proof.
  intros H Hg. unfold select_undo, bind, gets, array_length. simpl.
  rewrite pending_nil_length, Hg, pop_snoc by assumption. reflexivity.
Qed.

Lemma select_undo_none s :
  pending s = [] -> _action_groups s = [] -> select_undo s = (Return None, s).
Proof.
  intros H Hg. unfold select_undo, bind, gets, array_length. simpl.
  rewrite pending_nil_length, Hg by assumption. reflexivity.
Qed.

Lemma locked_step_undo_pending s :
  _action_lock s = true -> pending s <> [] ->
  locked_step s (set_undone (_undone s ++ [_actions s]) s).
Proof.
  intros Hl Hp. split; simpl; rewrite ?app_nil_r; auto.
  intros r _. split; [left; exact Hp | reflexivity].
Qed.

Lemma locked_step_undo_group s gs r :
  _action_lock s = true -> pending s = [] -> _action_groups s = gs ++ [r] ->
  locked_step s
    (set_undone (_undone s ++ [r])
       (set_store (alter reverse r (store s)) (set_action_groups gs s))).
Proof.
  intros Hl Hp Hg. split; simpl; rewrite ?app_nil_r; auto.
  - unfold pending in *. simpl.
    change (deref (set_store (alter reverse r (store s)) s) (_actions s) = deref s (_actions s)).
    rewrite deref_alter by reflexivity. case_decide; [|reflexivity].
    now rewrite Hp.
  - apply length_alter.
  - intros r0 [Hs|[Hs1 Hs2]]; [contradiction|].
    rewrite Hg, not_elem_of_app, not_elem_of_cons in Hs1.
    destruct Hs1 as (Hgs & Hne & _).
    split.
    + right. simpl. split; [exact Hgs|].
      rewrite not_elem_of_app, not_elem_of_cons. auto using not_elem_of_nil.
    + change (deref (set_store (alter reverse r (store s)) s) r0 = deref s r0).
      rewrite deref_alter by reflexivity. case_decide; congruence.
Qed.

Lemma locked_step_redo s rest r :
  _action_lock s = true -> _undone s = rest ++ [r] ->
  locked_step s (set_action_groups (_action_groups s ++ [r]) (set_undone rest s)).
Proof.
  intros Hl Hu. split; simpl; rewrite ?app_nil_r; auto.
  intros r0 [Hs|[Hs1 Hs2]].
  - split; [left; exact Hs | reflexivity].
  - rewrite Hu, not_elem_of_app, not_elem_of_cons in Hs2.
    destruct Hs2 as (Hrest & Hne & _).
    split; [|reflexivity]. right. simpl. split; [|exact Hrest].
    rewrite not_elem_of_app, not_elem_of_cons. auto using not_elem_of_nil.
Qed.

Lemma undo_select_eq s s0 :
  undo_prelude s = (Return tt, s0) -> undo_select s = select_undo s0.
Proof. intros H. unfold undo_select. now rewrite (bind_Return _ _ _ _ _ H). Qed.

Lemma undo_with_locked s :
  _action_lock s = true ->
  exists s', (forall inner, undo_with inner s = (Return true, s')) /\
             locked_step s s'.
Proof.
  intros Hl.
  destruct (undo_prelude_locked s Hl) as (s0 & E0 & L0 & Hag & Hg & Hu & Hst).
  assert (Hl0 : _action_lock s0 = true) by apply L0.
  apply undo_select_eq in E0.
  destruct (decide (pending s0 = [])) as [Hp|Hp].
  - destruct (pop_cases (_action_groups s0)) as [[Hn _]|(gs & r & Hs & _)].
    + rewrite (select_undo_none s0 Hp Hn) in E0.
      exists s0. split; [|assumption]. intros inner. unfold undo_with.
      now rewrite (bind_Return _ _ _ _ _ E0).
    + rewrite (select_undo_group s0 gs r Hp Hs) in E0.
      eexists. split.
      * intros inner. unfold undo_with.
        rewrite (bind_Return _ _ _ _ _ E0).
        rewrite (bind_Return _ _ _ _ _
                   (replay_locked inner r backward
                      (set_store (alter reverse r (store s0))
                         (set_action_groups gs s0)) Hl0)).
        reflexivity.
      * apply (locked_step_trans _ _ _ L0).
        exact (locked_step_undo_group s0 gs r Hl0 Hp Hs).
  - rewrite (select_undo_pending s0 Hp) in E0.
    eexists. split.
    + intros inner. unfold undo_with.
      rewrite (bind_Return _ _ _ _ _ E0).
      rewrite (bind_Return _ _ _ _ _ (replay_locked inner _ backward s0 Hl0)).
      reflexivity.
    + apply (locked_step_trans _ _ _ L0).
      exact (locked_step_undo_pending s0 Hl0 Hp).
Qed.

Lemma redo_with_locked s :
  _action_lock s = true ->
  exists s', (forall inner, redo_with inner s = (Return true, s')) /\
             locked_step s s' /\ store s' = store s.
Proof.
  intros Hl.
  destruct (pop_cases (_undone s)) as [[Hn E]|(rest & r & Hs & E)].
  - exists s. split; [|split; [now apply locked_step_refl|reflexivity]].
    intros inner. unfold redo_with.
    rewrite (bind_Return _ _ s (_undone s) s) by reflexivity.
    now rewrite E.
  - exists (set_action_groups (_action_groups s ++ [r]) (set_undone rest s)).
    split; [|split; [|reflexivity]].
    + intros inner. unfold redo_with.
      rewrite (bind_Return _ _ s (_undone s) s) by reflexivity.
      rewrite E.
      rewrite (bind_Return _ _ s tt (set_undone rest s)) by reflexivity.
      rewrite (bind_Return _ _ _ _ _
                 (replay_locked inner r forward (set_undone rest s) Hl)).
      reflexivity.
    + exact (locked_step_redo s rest r Hl Hs).
Qed.

Lemma run_call_locked c s :
  _action_lock s = true ->
  exists s', (forall inner, run_call inner c s = (Return tt, s')) /\
             locked_step s s' /\
             (c <> CallUndo -> store s' = store s).
Proof.
  intros Hl. destruct c as [fn fp bn bp d| | |]; simpl.
  - exists s. split; [|split; [now apply locked_step_refl|reflexivity]].
    intros _. now apply push_action_locked.
  - exists (set_autogroup None s). split; [|split; [|reflexivity]].
    + intros _. now apply group_actions_locked.
    + split; simpl; rewrite ?app_nil_r; auto.
  - destruct (undo_with_locked s Hl) as (s' & E & L).
    exists s'. split; [|split; [assumption|congruence]]. intros inner.
    now rewrite (bind_Return _ _ _ _ _ (E inner)).
  - destruct (redo_with_locked s Hl) as (s' & E & L & Hst).
    exists s'. split; [|split; [assumption|intros _; exact Hst]].
    intros inner. now rewrite (bind_Return _ _ _ _ _ (E inner)).
Qed.

Lemma run_calls_locked cs : forall s,
  _action_lock s = true ->
  exists s', (forall inner, run_calls inner cs s = (Return tt, s')) /\
             locked_step s s' /\
             (CallUndo ∉ cs -> store s' = store s).
Proof.
  induction cs as [|c cs IH]; intros s Hl; simpl.
  - exists s. split; [reflexivity|].
    split; [now apply locked_step_refl|reflexivity].
  - destruct (run_call_locked c s Hl) as (s1 & E1 & L1 & S1).
    destruct (IH s1 (hs_lock _ _ _ L1)) as (s2 & E2 & L2 & S2).
    exists s2. split; [|split; [eauto using locked_step_trans|]].
    + intros inner. now rewrite (bind_Return _ _ _ _ _ (E1 inner)).
    + intros Hc. apply not_elem_of_cons in Hc. destruct Hc as [Hc1 Hc2].
      rewrite (S2 Hc2). apply S1. congruence.
Qed.

Lemma run_handler_locked h n ps s :
  _action_lock s = true ->
  exists s', (forall inner,
               run_handler inner h n ps s = (outcome_of (raises h), s')) /\
             handler_step [(n, ps)] s s' /\
             (CallUndo ∉ calls h -> store s' = store s).
Proof.
  intros Hl.
  destruct (run_calls_locked (calls h)
              (set_invoked (invoked s ++ [(n, ps)]) s) Hl) as (s' & E & L & S).
  exists s'. split; [|split; [|exact S]].
  - intros inner. unfold run_handler.
    rewrite (bind_Return _ _ s tt (set_invoked (invoked s ++ [(n, ps)]) s))
      by reflexivity.
    rewrite (bind_Return _ _ _ _ _ (E inner)).
    now destruct (raises h).
  - destruct L. split; auto. simpl in *. now rewrite app_nil_r in *.
Qed.

(** ** Replaying a unit *)

Lemma drop_lookup_Some {A} (l : list A) k a :
  l !! k = Some a -> drop k l = a :: drop (S k) l.
Proof.
  revert k. induction l as [|x l IH]; intros [|k] H; simpl in *;
    try discriminate.
  - now injection H as ->.
  - now apply IH.
Qed.

Lemma drop_lookup_None {A} (l : list A) k :
  l !! k = None -> drop k l = [].
Proof.
  intros H. apply drop_ge. now apply lookup_ge_None.
Qed.

Lemma handler_keeps_unit m r n ps tr s s' :
  handler_step tr s s' ->
  (CallUndo ∉ calls (m n ps) -> store s' = store s) ->
  stable m r s ->
  stable m r s' /\ deref s' r = deref s r.
Proof.
  intros H Hst [Hc|Hu].
  - split; [now left|]. unfold deref. now rewrite (Hst (Hc n ps)).
  - destruct (hs_unit _ _ _ H r Hu) as [Hu' Hd]. split; [now right|exact Hd].
Qed.

Lemma forEach_from_locked m side r : forall n k s,
  _action_lock s = true ->
  exists o s' tr,
    (forall d, forEach_from r (callback (invoke_depth (S d) m) side) k n s
               = (o, s')) /\
    o <> Stuck /\
    handler_step tr s s' /\
    (forall e, o = Throw e ->
     exists n ps tr', tr = tr' ++ [(n, ps)] /\ raises (m n ps) = Some e) /\
    (stable m r s ->
     tr = fst (replay_trace m (map side (take n (drop k (deref s r))))) /\
     o = outcome_of
           (snd (replay_trace m (map side (take n (drop k (deref s r)))))) /\
     stable m r s' /\ deref s' r = deref s r).
Proof.
  induction n as [|n IH]; intros k s Hl.
  - exists (Return tt), s, [].
    split; [reflexivity|]. split; [discriminate|].
    split; [now apply locked_step_refl|]. split; [discriminate|].
    intros H. now rewrite take_0.
  - destruct (deref s r !! k) as [a|] eqn:Ea.
    + set (h := m (name (side a)) (parameters (side a))).
      destruct (run_handler_locked h (name (side a)) (parameters (side a)) s Hl)
        as (s1 & E1 & H1 & S1).
      assert (Hget : array_get r k s = (Return (Some a), s))
        by (unfold array_get, gets; now rewrite Ea).
      destruct (raises h) as [e|] eqn:Er.
      * exists (Throw e), s1, [(name (side a), parameters (side a))].
        split; [|split; [discriminate|split; [exact H1|split]]].
        -- intros d. simpl. rewrite (bind_Return _ _ _ _ _ Hget).
           unfold callback at 1. simpl. fold h.
           now rewrite (bind_Throw _ _ _ _ _ (E1 _)).
        -- intros e' [= <-]. exists (name (side a)), (parameters (side a)), [].
           split; [reflexivity|exact Er].
        -- intros H. rewrite (drop_lookup_Some _ _ _ Ea). simpl. fold h.
           rewrite Er. split; [reflexivity|]. split; [reflexivity|].
           exact (handler_keeps_unit m r _ _ _ s s1 H1 S1 H).
      * destruct (IH (S k) s1 (hs_lock _ _ _ H1))
          as (o & s2 & tr & E2 & Ho & H2 & Hthrow & Hs).
        exists o, s2, ((name (side a), parameters (side a)) :: tr).
        split; [|split; [exact Ho|split; [|split]]].
        -- intros d. simpl. rewrite (bind_Return _ _ _ _ _ Hget).
           unfold callback at 1. simpl. fold h.
           rewrite (bind_Return _ _ _ _ _ (E1 _)). apply E2.
        -- apply (handler_step_trans _ _ _ _ _ H1 H2).
        -- intros e He. destruct (Hthrow e He) as (n0 & ps & tr' & -> & Hr).
           exists n0, ps, ((name (side a), parameters (side a)) :: tr').
           split; [reflexivity|exact Hr].
        -- intros H.
           destruct (handler_keeps_unit m r _ _ _ s s1 H1 S1 H) as [Hs1 Hd].
           destruct (Hs Hs1) as (Htr & Hres & Hs2 & Hd2).
           rewrite Hd in Htr, Hres, Hd2.
           rewrite (drop_lookup_Some _ _ _ Ea). simpl. fold h. rewrite Er.
           clear Hs. destruct (replay_trace _ _). simpl in *. now subst.
    + destruct (IH (S k) s Hl) as (o & s2 & tr & E2 & Ho & H2 & Hthrow & Hs).
      assert (Hget : array_get r k s = (Return None, s))
        by (unfold array_get, gets; now rewrite Ea).
      exists o, s2, tr.
      split; [|split; [exact Ho|split; [exact H2|split; [exact Hthrow|]]]].
      * intros d. simpl. rewrite (bind_Return _ _ _ _ _ Hget).
        rewrite (bind_Return _ _ s tt s) by reflexivity. apply E2.
      * intros H. destruct (Hs H) as (Htr & Hres & Hs2 & Hd2).
        rewrite (drop_lookup_None (deref s r) (S k)) in Htr, Hres
          by (apply lookup_ge_None; apply lookup_ge_None in Ea; lia).
        rewrite (drop_lookup_None _ _ Ea).
        rewrite take_nil in *. auto.
Qed.

Lemma forEach_locked m side r s :
  _action_lock s = true ->
  exists o s' tr,
    (forall d, forEach r (callback (invoke_depth (S d) m) side) s = (o, s')) /\
    o <> Stuck /\
    handler_step tr s s' /\
    (forall e, o = Throw e ->
     exists n ps tr', tr = tr' ++ [(n, ps)] /\ raises (m n ps) = Some e) /\
    (stable m r s ->
     tr = fst (replay_trace m (map side (deref s r))) /\
     o = outcome_of (snd (replay_trace m (map side (deref s r)))) /\
     stable m r s' /\ deref s' r = deref s r).
Proof.
  intros Hl.
  destruct (forEach_from_locked m side r (length (deref s r)) 0 s Hl)
    as (o & s' & tr & E & Ho & H & Hthrow & Hs).
  exists o, s', tr.
  split; [|split; [exact Ho|split; [exact H|split; [exact Hthrow|]]]].
  - intros d. unfold forEach.
    rewrite (bind_Return _ _ s (length (deref s r)) s) by reflexivity.
    apply E.
  - intros Hstable. specialize (Hs Hstable).
    now rewrite drop_0, firstn_all in Hs.
Qed.

(** The replay run by an unlocked [undo] or [redo]: the lock is taken,
    the unit is walked, the lock is released however the walk ended. *)
Lemma replay_unlocked m side r s :
  _action_lock s = false ->
  exists o s' tr,
    (forall d, replay (invoke_depth (S d) m) r side s
               = (o, set_action_lock false s')) /\
    o <> Stuck /\
    handler_step tr (set_action_lock true s) s' /\
    (forall e, o = Throw e ->
     exists n ps tr', tr = tr' ++ [(n, ps)] /\ raises (m n ps) = Some e) /\
    (stable m r s ->
     tr = fst (replay_trace m (map side (deref s r))) /\
     o = outcome_of (snd (replay_trace m (map side (deref s r)))) /\
     stable m r s' /\ deref s' r = deref s r).
Proof.
  intros Hl.
  destruct (forEach_locked m side r (set_action_lock true s) eq_refl)
    as (o & s' & tr & E & Ho & H & Hthrow & Hs).
  exists o, s', tr.
  split; [|split; [exact Ho|split; [exact H|split; [exact Hthrow|exact Hs]]]].
  intros d. unfold replay.
  rewrite (bind_Return _ _ s false s) by (unfold gets; now rewrite Hl).
  rewrite (bind_Return _ _ s tt (set_action_lock true s)) by reflexivity.
  unfold try_finally.
  change (fun action => _) with (callback (invoke_depth (S d) m) side).
  rewrite (E d). destruct o; try reflexivity. congruence.
Qed.

(** ** The two public replaying methods, case by case *)

Lemma undo_select_frame s :
  exists sel s1,
    undo_select s = (Return sel, s1) /\
    _action_lock s1 = _action_lock s /\
    _autogroup s1 = None /\
    invoked s1 = invoked s.
Proof.
  destruct s as [acts groups und ag lock st tm nh inv].
  unfold undo_select, undo_prelude, select_undo, group_actions, clearTimeout,
    array_new, array_length, array_reverse, bind, gets, modify, ret.
  cbn.
  destruct ag as [h|], lock; cbn;
    repeat match goal with
           | |- context [if ?b then _ else _] => destruct b; cbn
           | |- context [match pop ?l with _ => _ end] =>
               destruct (pop l) as [[? ?]|]; cbn
           end; eauto 10.
Qed.

Lemma undo_select_live s sel s1 :
  undo_select s = (Return sel, s1) -> live s -> live s1.
Proof.
  destruct s as [acts groups und ag lock st tm nh inv].
  unfold undo_select, undo_prelude, select_undo, group_actions, clearTimeout,
    array_new, array_length, array_reverse, bind, gets, modify, ret, live.
  cbn.
  destruct ag as [h|], lock; cbn;
    repeat match goal with
           | |- context [if ?b then _ else _] => destruct b; cbn
           | |- context [match pop ?l with _ => _ end] =>
               destruct (pop l) as [[? ?]|]; cbn
           end;
    intros [= <- <-]; cbn; rewrite ?length_alter, ?length_app; cbn; lia.
Qed.

Lemma undo_with_replay invoke s s1 r :
  undo_select s = (Return (Some r), s1) ->
  undo_with invoke s =
  after_replay (fst (replay invoke r backward s1))
    (fun s2 => set_undone (_undone s2 ++ [r]) s2)
    (snd (replay invoke r backward s1)).
Proof.
  intros E. unfold undo_with. rewrite (bind_Return _ _ _ _ _ E).
  unfold bind at 1. destruct (replay invoke r backward s1) as [[[]|e|] s2];
    reflexivity.
Qed.

Lemma undo_with_nothing invoke s s1 :
  undo_select s = (Return None, s1) ->
  undo_with invoke s = (Return true, s1).
Proof.
  intros E. unfold undo_with. now rewrite (bind_Return _ _ _ _ _ E).
Qed.

Lemma redo_with_replay invoke s rest r :
  _undone s = rest ++ [r] ->
  redo_with invoke s =
  after_replay (fst (replay invoke r forward (set_undone rest s)))
    (fun s2 => set_action_groups (_action_groups s2 ++ [r]) s2)
    (snd (replay invoke r forward (set_undone rest s))).
Proof.
  intros E. unfold redo_with.
  rewrite (bind_Return _ _ s (_undone s) s) by reflexivity.
  rewrite E, pop_snoc.
  rewrite (bind_Return _ _ s tt (set_undone rest s)) by reflexivity.
  unfold bind at 1.
  destruct (replay invoke r forward (set_undone rest s)) as [[[]|e|] s2];
    reflexivity.
Qed.

Lemma redo_with_nothing invoke s :
  _undone s = [] -> redo_with invoke s = (Return true, s).
Proof.
  intros E. unfold redo_with.
  rewrite (bind_Return _ _ s (_undone s) s) by reflexivity.
  now rewrite E.
Qed.

(** Handlers nested deeper than one level never run. *)
Lemma replay_depth_irrelevant d m r side s :
  replay (invoke_depth (S d) m) r side s = replay (map_invoke m) r side s.
Proof.
  destruct (_action_lock s) eqn:Hl.
  - now rewrite !replay_locked.
  - destruct (replay_unlocked m side r s Hl) as (o & s' & tr & E & _).
    unfold map_invoke. now rewrite (E d), (E 0%nat).
Qed.

Lemma replay_not_stuck m r side s :
  fst (replay (map_invoke m) r side s) <> Stuck.
Proof.
  destruct (_action_lock s) eqn:Hl.
  - now rewrite replay_locked.
  - destruct (replay_unlocked m side r s Hl) as (o & s' & tr & E & Ho & _).
    unfold map_invoke. now rewrite (E 0%nat).
Qed.

Lemma undo_depth_irrelevant d m s :
  undo_with (invoke_depth (S d) m) s = undo m s.
Proof.
  destruct (undo_select_frame s) as ([r|] & s1 & E & _).
  - unfold undo. rewrite !(undo_with_replay _ _ _ _ E).
    now rewrite replay_depth_irrelevant.
  - unfold undo. now rewrite !(undo_with_nothing _ _ _ E).
Qed.

Lemma redo_depth_irrelevant d m s :
  redo_with (invoke_depth (S d) m) s = redo m s.
Proof.
  destruct (pop_cases (_undone s)) as [[E _]|(rest & r & E & _)].
  - unfold redo. now rewrite !(redo_with_nothing _ _ E).
  - unfold redo. rewrite !(redo_with_replay _ _ _ _ E).
    now rewrite replay_depth_irrelevant.
Qed.

Lemma undo_not_stuck m s : result (undo m) s <> Stuck.
Proof.
  unfold result, undo.
  destruct (undo_select_frame s) as ([r|] & s1 & E & _).
  - rewrite (undo_with_replay _ _ _ _ E).
    pose proof (replay_not_stuck m r backward s1) as H.
    destruct (replay (map_invoke m) r backward s1) as [[[]|e|] s2];
      simpl in *; congruence.
  - now rewrite (undo_with_nothing _ _ _ E).
Qed.

Lemma redo_not_stuck m s : result (redo m) s <> Stuck.
Proof.
  unfold result, redo.
  destruct (pop_cases (_undone s)) as [[E _]|(rest & r & E & _)].
  - now rewrite (redo_with_nothing _ _ E).
  - rewrite (redo_with_replay _ _ _ _ E).
    pose proof (replay_not_stuck m r forward (set_undone rest s)) as H.
    destruct (replay (map_invoke m) r forward (set_undone rest s))
      as [[[]|e|] s2]; simpl in *; congruence.
Qed.

(** ** What a replay leaves alone *)

Lemma replay_frame m r side s :
  exists o s',
    replay (map_invoke m) r side s = (o, s') /\
    o <> Stuck /\
    _action_lock s' = _action_lock s /\
    _actions s' = _actions s /\
    pending s' = pending s /\
    length (store s') = length (store s) /\
    (_autogroup s = None -> _autogroup s' = None /\ timeouts s' = timeouts s).
Proof.
  destruct (_action_lock s) eqn:Hl.
  - exists (Return tt), s. rewrite replay_locked by assumption.
    repeat split; auto; discriminate.
  - destruct (replay_unlocked m side r s Hl) as (o & s' & tr & E & Ho & H & _).
    exists o, (set_action_lock false s'). unfold map_invoke. rewrite (E 0%nat).
    destruct H. repeat split; auto; simpl; try apply hs_timer0; assumption.
Qed.

Lemma undo_autogroup m s : _autogroup (exec (undo m) s) = None.
Proof.
  unfold exec, undo.
  destruct (undo_select_frame s) as ([r|] & s1 & E & _ & Hag & _).
  - rewrite (undo_with_replay _ _ _ _ E).
    destruct (replay_frame m r backward s1)
      as (o & s2 & -> & Ho & _ & _ & _ & _ & Ht).
    destruct (Ht Hag) as [Hag2 _].
    destruct o as [[]|e|]; simpl; congruence.
  - now rewrite (undo_with_nothing _ _ _ E).
Qed.

Lemma redo_autogroup m s :
  _autogroup s = None -> _autogroup (exec (redo m) s) = None.
Proof.
  intros Hag. unfold exec, redo.
  destruct (pop_cases (_undone s)) as [[E _]|(rest & r & E & _)].
  - now rewrite (redo_with_nothing _ _ E).
  - rewrite (redo_with_replay _ _ _ _ E).
    destruct (replay_frame m r forward (set_undone rest s))
      as (o & s2 & -> & Ho & _ & _ & _ & _ & Ht).
    destruct (Ht Hag) as [Hag2 _].
    destruct o as [[]|e|]; simpl; congruence.
Qed.

Lemma lock_inv_of_autogroup s : _autogroup s = None -> lock_inv s.
Proof. intros H. split; intros _; exact H. Qed.

Lemma push_action_unlocked fn fp bn bp d s :
  _action_lock s = false ->
  exists s', push_action fn fp bn bp d s = (Return tt, s') /\
    _action_lock s' = false /\ _undone s' = [] /\
    _actions s' = _actions s /\
    _action_groups s' = _action_groups s /\
    invoked s' = invoked s /\
    store s' = alter (fun l => l ++ [mkAction (mkDescriptor fn fp)
                                               (mkDescriptor bn bp)])
                 (_actions s) (store s).
Proof.
  intros Hl. unfold push_action, bind, gets. simpl. rewrite Hl.
  destruct d as [delay|]; simpl.
  - destruct (_autogroup s); simpl; (eexists; split; [reflexivity|]);
      simpl; auto 10.
  - eexists; split; [reflexivity|]. simpl. auto 10.
Qed.

Lemma group_actions_autogroup s : _autogroup (exec group_actions s) = None.
Proof.
  unfold exec, group_actions, bind, gets, modify. simpl.
  now destruct (_action_lock s).
Qed.

Lemma reachable_lock_inv s : reachable s -> lock_inv s.
Proof.
  induction 1 as [|m c s Hs IH|h s Hs IH Hl|s r s1 Hs IH Hl E
                  |s rest r Hs IH Hl E|n ps s Hs IH Hl].
  - split; simpl; congruence.
  - destruct (_action_lock s) eqn:Hl.
    + destruct (run_call_locked c s Hl) as (s' & E & L & _).
      unfold exec. rewrite (E _). simpl.
      apply lock_inv_of_autogroup, (hs_timer _ _ _ L), (proj1 IH Hl).
    + destruct c as [fn fp bn bp d| | |]; unfold exec; simpl.
      * destruct (push_action_unlocked fn fp bn bp d s Hl)
          as (s' & -> & Hl' & Hu & _).
        split; simpl; congruence.
      * apply lock_inv_of_autogroup, group_actions_autogroup.
      * apply lock_inv_of_autogroup.
        pose proof (undo_autogroup m s) as H. unfold exec, undo in H.
        unfold bind. destruct (undo_with (map_invoke m) s) as [[b|e|] s'];
          exact H.
      * destruct (decide (_undone s = [])) as [Hu|Hu].
        -- rewrite (bind_Return _ _ _ _ _ (redo_with_nothing _ s Hu)).
           exact IH.
        -- apply lock_inv_of_autogroup.
           pose proof (redo_autogroup m s (proj2 IH Hu)) as H.
           unfold exec, redo in H.
           unfold bind. destruct (redo_with (map_invoke m) s) as [[b|e|] s'];
             exact H.
  - unfold exec, fire, bind, gets. simpl.
    destruct (scheduled h s); simpl; [|exact IH].
    apply lock_inv_of_autogroup.
    exact (group_actions_autogroup
             (set_timeouts (filter (fun t => fst t <> h) (timeouts s)) s)).
  - destruct (undo_select_frame s) as (sel & s1' & E' & _ & Hag & _).
    rewrite E in E'. injection E' as _ <-.
    now apply lock_inv_of_autogroup.
  - apply lock_inv_of_autogroup. simpl. apply IH.
    rewrite E. now destruct rest.
  - destruct IH as [IH1 IH2]. split; simpl; auto.
Qed.

Lemma undo_live m s : live s -> live (exec (undo m) s).
Proof.
  intros Hlive. unfold exec, undo.
  destruct (undo_select_frame s) as ([r|] & s1 & E & _).
  - pose proof (undo_select_live _ _ _ E Hlive) as H1.
    rewrite (undo_with_replay _ _ _ _ E).
    destruct (replay_frame m r backward s1)
      as (o & s2 & -> & Ho & _ & Ha & _ & Hlen & _).
    unfold live in *.
    destruct o as [[]|e|]; simpl; congruence.
  - rewrite (undo_with_nothing _ _ _ E).
    exact (undo_select_live _ _ _ E Hlive).
Qed.

Lemma redo_live m s : live s -> live (exec (redo m) s).
Proof.
  intros Hlive. unfold exec, redo.
  destruct (pop_cases (_undone s)) as [[E _]|(rest & r & E & _)].
  - now rewrite (redo_with_nothing _ _ E).
  - rewrite (redo_with_replay _ _ _ _ E).
    destruct (replay_frame m r forward (set_undone rest s))
      as (o & s2 & -> & Ho & _ & Ha & _ & Hlen & _).
    unfold live in *. simpl in *.
    destruct o as [[]|e|]; simpl; congruence.
Qed.

Lemma group_actions_live s : live s -> live (exec group_actions s).
Proof.
  intros Hlive. unfold exec. destruct (_action_lock s) eqn:Hl.
  - now rewrite group_actions_locked.
  - rewrite group_actions_unlocked by assumption. unfold live. simpl.
    rewrite length_app. simpl. lia.
Qed.

(** In every reachable state [_actions] names an array of the store. *)
Lemma reachable_live s : reachable s -> live s.
Proof.
  induction 1 as [|m c s Hs IH|h s Hs IH Hl|s r s1 Hs IH Hl E
                  |s rest r Hs IH Hl E|n ps s Hs IH Hl].
  - unfold live. simpl. lia.
  - destruct c as [fn fp bn bp d| | |]; unfold exec; simpl.
    + destruct (_action_lock s) eqn:Hl.
      * now rewrite push_action_locked.
      * destruct (push_action_unlocked fn fp bn bp d s Hl)
          as (s' & -> & _ & _ & Ha & _ & _ & Hst).
        unfold live in *. simpl. rewrite Ha, Hst, length_alter. exact IH.
    + now apply group_actions_live.
    + pose proof (undo_live m s IH) as H. unfold exec, undo in H.
      unfold bind. destruct (undo_with (map_invoke m) s) as [[b|e|] s'];
        exact H.
    + pose proof (redo_live m s IH) as H. unfold exec, redo in H.
      unfold bind. destruct (redo_with (map_invoke m) s) as [[b|e|] s'];
        exact H.
  - unfold exec, fire, bind, gets. simpl.
    destruct (scheduled h s); simpl; [|exact IH].
    exact (group_actions_live
             (set_timeouts (filter (fun t => fst t <> h) (timeouts s)) s) IH).
  - exact (undo_select_live _ _ _ E IH).
  - exact IH.
  - exact IH.
Qed.

(** ** Every reference names an array *)

Lemma keeps_allocated_same {A} (c : M A) :
  (forall s, _actions (exec c s) = _actions s /\
             _action_groups (exec c s) = _action_groups s /\
             _undone (exec c s) = _undone s /\
             store (exec c s) = store s) ->
  keeps_allocated c.
Proof.
  intros H s Hs. destruct (H s) as (Ha & Hg & Hu & Hst).
  unfold allocated, live in *. rewrite Ha, Hg, Hu, Hst. auto.
Qed.

Lemma keeps_allocated_bind {A B} (c : M A) (k : A -> M B) :
  keeps_allocated c -> (forall a, keeps_allocated (k a)) ->
  keeps_allocated (bind c k).
Proof.
  intros Hc Hk s Hs. destruct (Hc s Hs) as [H1 H2]. revert H1 H2.
  unfold exec, bind. destruct (c s) as [[a|e|] s']; simpl; auto.
  intros H1 H2. destruct (Hk a s' H1) as [H3 H4]. split; [exact H3|].
  unfold exec in H4. lia.
Qed.

Lemma keeps_allocated_try_finally {A} (body : M A) (final : M unit) :
  keeps_allocated body -> keeps_allocated final ->
  keeps_allocated (try_finally body final).
Proof.
  intros Hb Hf s Hs. destruct (Hb s Hs) as [H1 H2]. revert H1 H2.
  unfold exec, try_finally.
  destruct (body s) as [[a|e|] s']; simpl; auto; intros H1 H2;
    destruct (Hf s' H1) as [H3 H4]; revert H3 H4; unfold exec;
    destruct (final s') as [[[]|e'|] s'']; simpl; intros; split; auto; lia.
Qed.

Lemma keeps_allocated_push_action fn fp bn bp d :
  keeps_allocated (push_action fn fp bn bp d).
Proof.
  intros s Hs. unfold exec. destruct (_action_lock s) eqn:Hl.
  - rewrite push_action_locked by assumption. auto.
  - destruct (push_action_unlocked fn fp bn bp d s Hl)
      as (s' & -> & _ & Hu & Ha & Hg & _ & Hst).
    destruct Hs as (H1 & H2 & H3).
    unfold allocated, live in *. simpl.
    rewrite Ha, Hg, Hu, Hst, length_alter. auto.
Qed.

Lemma keeps_allocated_group_actions : keeps_allocated group_actions.
Proof.
  intros s (Ha & Hg & Hu). unfold exec. destruct (_action_lock s) eqn:Hl.
  - rewrite group_actions_locked by assumption. simpl.
    split; [exact (conj Ha (conj Hg Hu))|lia].
  - rewrite group_actions_unlocked by assumption.
    unfold allocated, live in *. simpl. rewrite length_app. simpl.
    split; [|lia]. split; [lia|]. split; [|constructor].
    apply Forall_app. split.
    + eapply Forall_impl; [exact Hg|]. simpl. intros; lia.
    + constructor; [lia|constructor].
Qed.

Lemma keeps_allocated_clearTimeout h : keeps_allocated (clearTimeout h).
Proof. apply keeps_allocated_same. intros s. now repeat split. Qed.

Lemma keeps_allocated_fire h : keeps_allocated (fire h).
Proof.
  intros s Hs. unfold fire, exec, bind, gets. simpl.
  destruct (scheduled h s); simpl; [|auto].
  exact (keeps_allocated_group_actions
           (set_timeouts (filter (fun t => fst t <> h) (timeouts s)) s) Hs).
Qed.

Lemma keeps_allocated_undo_prelude : keeps_allocated undo_prelude.
Proof.
  intros s Hs. unfold undo_prelude, exec, bind, gets. simpl.
  destruct (_autogroup s) as [h|]; simpl; [|auto].
  exact (keeps_allocated_group_actions
           (set_timeouts (filter (fun t => fst t <> h) (timeouts s)) s) Hs).
Qed.

Lemma allocated_select_undo s sel s1 :
  select_undo s = (Return sel, s1) -> allocated s ->
  allocated s1 /\ length (store s1) = length (store s) /\
  (forall r, sel = Some r -> (r < length (store s1))%nat).
Proof.
  intros E (Ha & Hg & Hu).
  destruct (decide (pending s = [])) as [Hp|Hp].
  - destruct (pop_cases (_action_groups s)) as [[Hn _]|(gs & r & Hs & _)].
    + rewrite (select_undo_none s Hp Hn) in E. injection E as <- <-.
      split; [exact (conj Ha (conj Hg Hu))|]. split; [reflexivity|].
      discriminate.
    + rewrite (select_undo_group s gs r Hp Hs) in E. injection E as <- <-.
      rewrite Hs in Hg. apply Forall_app in Hg as [Hgs Hr].
      apply Forall_cons in Hr as [Hr _].
      unfold allocated, live in *. simpl. rewrite length_alter.
      split; [auto|]. split; [reflexivity|]. intros r0 Hr0. now injection Hr0 as <-.
  - rewrite select_undo_pending in E by assumption. injection E as <- <-.
    split; [exact (conj Ha (conj Hg Hu))|]. split; [reflexivity|].
    intros r0 Hr0. injection Hr0 as <-. exact Ha.
Qed.

Lemma allocated_undo_select s sel s1 :
  undo_select s = (Return sel, s1) -> allocated s ->
  allocated s1 /\ (length (store s) <= length (store s1))%nat /\
  (forall r, sel = Some r -> (r < length (store s1))%nat).
Proof.
  intros E Hs. destruct (keeps_allocated_undo_prelude s Hs) as [H1 H2].
  revert E H1 H2. unfold undo_select, exec, bind.
  destruct (undo_prelude s) as [[[]|e|] s0]; simpl; try discriminate.
  intros E H1 H2.
  destruct (allocated_select_undo s0 sel s1 E H1) as (H3 & H4 & H5).
  split; [exact H3|]. split; [lia|exact H5].
Qed.

Lemma keeps_allocated_forEach_from r f :
  (forall a, keeps_allocated (f a)) ->
  forall n k, keeps_allocated (forEach_from r f k n).
Proof.
  intros Hf. induction n as [|n IH]; intros k; simpl.
  - apply keeps_allocated_same. intros s. now repeat split.
  - apply keeps_allocated_bind.
    + apply keeps_allocated_same. intros s. now repeat split.
    + intros x. apply keeps_allocated_bind.
      * destruct x as [a|]; [apply Hf|].
        apply keeps_allocated_same. intros s. now repeat split.
      * intros ?. apply IH.
Qed.

Lemma keeps_allocated_replay invoke r side :
  (forall n ps, keeps_allocated (invoke n ps)) ->
  keeps_allocated (replay invoke r side).
Proof.
  intros Hi. unfold replay. apply keeps_allocated_bind.
  - apply keeps_allocated_same. intros s. now repeat split.
  - intros [|].
    + apply keeps_allocated_same. intros s. now repeat split.
    + apply keeps_allocated_bind.
      * apply keeps_allocated_same. intros s. now repeat split.
      * intros ?. apply keeps_allocated_try_finally.
        -- unfold forEach. apply keeps_allocated_bind.
           ++ apply keeps_allocated_same. intros s. now repeat split.
           ++ intros len. apply keeps_allocated_forEach_from.
              intros action. apply Hi.
        -- apply keeps_allocated_same. intros s. now repeat split.
Qed.

Lemma keeps_allocated_undo_with invoke :
  (forall n ps, keeps_allocated (invoke n ps)) ->
  keeps_allocated (undo_with invoke).
Proof.
  intros Hi s Hs. unfold exec.
  destruct (undo_select_frame s) as ([r|] & s1 & E & _).
  - destruct (allocated_undo_select s _ s1 E Hs) as (H1 & H2 & H3).
    specialize (H3 r eq_refl).
    rewrite (undo_with_replay _ _ _ _ E).
    destruct (keeps_allocated_replay invoke r backward Hi s1 H1) as [H4 H5].
    revert H4 H5. unfold exec.
    destruct (replay invoke r backward s1) as [[[]|e|] s2]; simpl;
      intros H4 H5; (split; [|lia]); try exact H4.
    destruct H4 as (Ha & Hg & Hu). unfold allocated, live in *. simpl.
    split; [exact Ha|]. split; [exact Hg|].
    apply Forall_app. split; [exact Hu|]. constructor; [lia|constructor].
  - destruct (allocated_undo_select s _ s1 E Hs) as (H1 & H2 & _).
    rewrite (undo_with_nothing _ _ _ E). simpl. auto.
Qed.

Lemma keeps_allocated_redo_with invoke :
  (forall n ps, keeps_allocated (invoke n ps)) ->
  keeps_allocated (redo_with invoke).
Proof.
  intros Hi s Hs. unfold exec.
  destruct (pop_cases (_undone s)) as [[E _]|(rest & r & E & _)].
  - rewrite (redo_with_nothing _ _ E). simpl. auto.
  - rewrite (redo_with_replay _ _ _ _ E).
    assert (H1 : allocated (set_undone rest s) /\
                 (r < length (store s))%nat).
    { destruct Hs as (Ha & Hg & Hu). rewrite E in Hu.
      apply Forall_app in Hu as [Hrest Hr]. apply Forall_cons in Hr as [Hr _].
      split; [exact (conj Ha (conj Hg Hrest))|exact Hr]. }
    destruct H1 as [H1 Hr].
    destruct (keeps_allocated_replay invoke r forward Hi _ H1) as [H4 H5].
    revert H4 H5. unfold exec.
    destruct (replay invoke r forward (set_undone rest s)) as [[[]|e|] s2];
      simpl; intros H4 H5; (split; [|lia]); try exact H4.
    destruct H4 as (Ha & Hg & Hu). unfold allocated, live in *. simpl.
    split; [exact Ha|]. split; [|exact Hu].
    apply Forall_app. split; [exact Hg|]. constructor; [lia|constructor].
Qed.

Lemma keeps_allocated_run_call invoke c :
  (forall n ps, keeps_allocated (invoke n ps)) ->
  keeps_allocated (run_call invoke c).
Proof.
  intros Hi. destruct c as [fn fp bn bp d| | |]; simpl.
  - apply keeps_allocated_push_action.
  - apply keeps_allocated_group_actions.
  - apply keeps_allocated_bind; [now apply keeps_allocated_undo_with|].
    intros ?. apply keeps_allocated_same. intros s. now repeat split.
  - apply keeps_allocated_bind; [now apply keeps_allocated_redo_with|].
    intros ?. apply keeps_allocated_same. intros s. now repeat split.
Qed.

Lemma keeps_allocated_run_calls invoke cs :
  (forall n ps, keeps_allocated (invoke n ps)) ->
  keeps_allocated (run_calls invoke cs).
Proof.
  intros Hi. induction cs as [|c cs IH]; simpl.
  - apply keeps_allocated_same. intros s. now repeat split.
  - apply keeps_allocated_bind; [now apply keeps_allocated_run_call|].
    intros ?. exact IH.
Qed.

Lemma keeps_allocated_invoke_depth m d :
  forall n ps, keeps_allocated (invoke_depth d m n ps).
Proof.
  induction d as [|d IH]; intros n ps; simpl.
  - apply keeps_allocated_same. intros s. now repeat split.
  - unfold run_handler. apply keeps_allocated_bind.
    + apply keeps_allocated_same. intros s. now repeat split.
    + intros ?. apply keeps_allocated_bind.
      * now apply keeps_allocated_run_calls.
      * intros ?. destruct (raises (m n ps));
          apply keeps_allocated_same; intros s; now repeat split.
Qed.

(** In every reachable state [_actions] and every entry of the committed
    and undone stacks name an array of the store. *)
Lemma reachable_allocated s : reachable s -> allocated s.
Proof.
  induction 1 as [|m c s Hs IH|h s Hs IH Hl|s r s1 Hs IH Hl E
                  |s rest r Hs IH Hl E|n ps s Hs IH Hl].
  - unfold allocated, live. simpl. split; [lia|]. split; constructor.
  - apply (keeps_allocated_run_call (map_invoke m) c); [|exact IH].
    apply keeps_allocated_invoke_depth.
  - now apply keeps_allocated_fire.
  - destruct (allocated_undo_select s _ s1 E IH) as (H1 & _).
    exact H1.
  - destruct IH as (Ha & Hg & Hu). rewrite E in Hu.
    apply Forall_app in Hu as [Hrest _].
    exact (conj Ha (conj Hg Hrest)).
  - exact IH.
Qed.

(** ** Reachability of concrete runs *)

Lemma reach_push fn fp bn bp d s :
  reachable s -> reachable (exec (push_action fn fp bn bp d) s).
Proof. intros H. exact (reach_call idle (CallPush fn fp bn bp d) s H). Qed.


Lemma reach_undo m s : reachable s -> reachable (exec (undo m) s).
Proof.
  intros H. pose proof (reach_call m CallUndo s H) as R. simpl in R.
  unfold exec, bind in R. unfold exec, undo.
  now destruct (undo_with (map_invoke m) s) as [[b|e|] s'].
Qed.


(** ** [undo] and [redo] with the lock clear *)

Lemma undo_unlocked m s s1 r :
  undo_select s = (Return (Some r), s1) ->
  _action_lock s1 = false ->
  exists o s2 tr,
    undo m s = after_replay o (fun s' => set_undone (_undone s' ++ [r]) s')
                 (set_action_lock false s2) /\
    o <> Stuck /\
    handler_step tr (set_action_lock true s1) s2 /\
    (forall e, o = Throw e ->
     exists n ps tr', tr = tr' ++ [(n, ps)] /\ raises (m n ps) = Some e) /\
    (stable m r s1 ->
     tr = fst (replay_trace m (map backward (deref s1 r))) /\
     o = outcome_of (snd (replay_trace m (map backward (deref s1 r)))) /\
     stable m r s2 /\ deref s2 r = deref s1 r).
Proof.
  intros E Hl.
  destruct (replay_unlocked m backward r s1 Hl)
    as (o & s2 & tr & E2 & Ho & H & Hthrow & Hs).
  exists o, s2, tr. split; [|auto].
  unfold undo. rewrite (undo_with_replay _ _ _ _ E).
  unfold map_invoke. now rewrite (E2 0%nat).
Qed.

Lemma redo_unlocked m s rest r :
  _undone s = rest ++ [r] ->
  _action_lock s = false ->
  exists o s2 tr,
    redo m s = after_replay o
                 (fun s' => set_action_groups (_action_groups s' ++ [r]) s')
                 (set_action_lock false s2) /\
    o <> Stuck /\
    handler_step tr (set_action_lock true (set_undone rest s)) s2 /\
    (forall e, o = Throw e ->
     exists n ps tr', tr = tr' ++ [(n, ps)] /\ raises (m n ps) = Some e) /\
    (stable m r (set_undone rest s) ->
     tr = fst (replay_trace m (map forward (deref s r))) /\
     o = outcome_of (snd (replay_trace m (map forward (deref s r)))) /\
     stable m r s2 /\ deref s2 r = deref s r).
Proof.
  intros E Hl.
  destruct (replay_unlocked m forward r (set_undone rest s) Hl)
    as (o & s2 & tr & E2 & Ho & H & Hthrow & Hs).
  exists o, s2, tr. split; [|auto].
  unfold redo. rewrite (redo_with_replay _ _ _ _ E).
  unfold map_invoke. now rewrite (E2 0%nat).
Qed.

Lemma undo_locked m s s1 r :
  undo_select s = (Return (Some r), s1) ->
  _action_lock s1 = true ->
  undo m s = (Return true, set_undone (_undone s1 ++ [r]) s1).
Proof.
  intros E Hl. unfold undo. rewrite (undo_with_replay _ _ _ _ E).
  now rewrite replay_locked.
Qed.

Lemma redo_locked m s rest r :
  _undone s = rest ++ [r] ->
  _action_lock s = true ->
  redo m s = (Return true,
              set_action_groups (_action_groups s ++ [r]) (set_undone rest s)).
Proof.
  intros E Hl. unfold redo. rewrite (redo_with_replay _ _ _ _ E).
  now rewrite replay_locked.
Qed.

(** Selection when no timeout is on record. *)
Lemma undo_select_pending s :
  _autogroup s = None -> pending s <> [] ->
  undo_select s = (Return (Some (_actions s)), s).
Proof.
  intros Hag Hp. rewrite (undo_select_eq _ _ (undo_prelude_None s Hag)).
  now apply select_undo_pending.
Qed.

Lemma undo_select_group s gs r :
  _autogroup s = None -> pending s = [] -> _action_groups s = gs ++ [r] ->
  undo_select s =
  (Return (Some r),
   set_store (alter reverse r (store s)) (set_action_groups gs s)).
Proof.
  intros Hag Hp Hg. rewrite (undo_select_eq _ _ (undo_prelude_None s Hag)).
  now apply select_undo_group.
Qed.

Lemma undo_select_none s :
  _autogroup s = None -> pending s = [] -> _action_groups s = [] ->
  undo_select s = (Return None, s).
Proof.
  intros Hag Hp Hg. rewrite (undo_select_eq _ _ (undo_prelude_None s Hag)).
  now apply select_undo_none.
Qed.

Lemma deref_reverse s r r' :
  deref (set_store (alter reverse r (store s)) s) r' =
  if decide (r = r') then reverse (deref s r') else deref s r'.
Proof. now apply deref_alter. Qed.

Lemma replay_trace_total m ds :
  (forall d, d ∈ ds -> raises (m (name d) (parameters d)) = None) ->
  replay_trace m ds = (map invocation_of ds, None).
Proof.
  induction ds as [|d ds IH]; intros H; simpl; [reflexivity|].
  rewrite (H d) by apply list_elem_of_here.
  rewrite IH; [reflexivity|].
  intros d' Hd'. apply H. now apply list_elem_of_further.
Qed.

Lemma replay_trace_fails m pre d post e :
  (forall d', d' ∈ pre -> raises (m (name d') (parameters d')) = None) ->
  raises (m (name d) (parameters d)) = Some e ->
  replay_trace m (pre ++ d :: post) = (map invocation_of (pre ++ [d]), Some e).
Proof.
  induction pre as [|d0 pre IH]; intros H He; simpl.
  - now rewrite He.
  - rewrite (H d0) by apply list_elem_of_here.
    rewrite IH; [reflexivity| |exact He].
    intros d' Hd'. apply H. now apply list_elem_of_further.
Qed.

(** ** The claims *)

(** C1 (the concrete scenario).  After push A, push B and
    [group_actions()], [undo()] invokes [set_y [0]] then [set_x [0]].  The
    [redo()] that follows finds the group as [undo] reversed it in place
    and invokes [set_y [2]] then [set_x [1]]: the forward descriptors are
    replayed in the reverse of their original order, not in it. *)
Theorem scenario_redo_replays_in_reverse :
  undo idle scenario_grouped = (Return true, scenario_undone) /\
  invoked scenario_undone = [("set_y", [Num 0]); ("set_x", [Num 0])] /\
  deref scenario_undone 0 = [action_B; action_A] /\
  redo idle scenario_undone = (Return true, scenario_redone) /\
  invoked scenario_redone =
    invoked scenario_undone ++ [("set_y", [Num 2]); ("set_x", [Num 1])].
Proof. vm_compute. repeat split. Qed.

Lemma deref_push s a :
  live s ->
  deref (set_store (alter (fun l => l ++ [a]) (_actions s) (store s)) s)
    (_actions s) = pending s ++ [a].
Proof.
  unfold live, pending, deref. intros H. cbn [store set_store].
  rewrite list_lookup_alter_eq.
  destruct (lookup_lt_is_Some_2 _ _ H) as [l ->]. reflexivity.
Qed.

Lemma pending_live s : pending s <> [] -> live s.
Proof.
  unfold pending, deref, live. intros H.
  apply lookup_lt_is_Some. destruct (store s !! _actions s); [eauto|].
  now contradiction H.
Qed.

Lemma push_action_pending fn fp bn bp d s :
  _action_lock s = false -> live s ->
  pending (exec (push_action fn fp bn bp d) s) =
  pending s ++ [mkAction (mkDescriptor fn fp) (mkDescriptor bn bp)].
Proof.
  intros Hl Hlive. unfold exec.
  destruct (push_action_unlocked fn fp bn bp d s Hl)
    as (s' & -> & _ & _ & Ha & _ & _ & Hst). simpl.
  unfold pending at 1. rewrite Ha. unfold deref. rewrite Hst.
  now apply deref_push.
Qed.

Lemma push_action_records fn fp bn bp d s :
  _action_lock s = false ->
  live s ->
  let s1 := exec (push_action fn fp bn bp d) s in
  push_action fn fp bn bp d s = (Return tt, s1) /\
  pending s1 =
    pending s ++ [mkAction (mkDescriptor fn fp) (mkDescriptor bn bp)] /\
  _undone s1 = [].
Proof.
  intros Hl Hlive s1. subst s1.
  pose proof (push_action_pending fn fp bn bp d s Hl Hlive) as Hp.
  unfold exec in *.
  destruct (push_action_unlocked fn fp bn bp d s Hl)
    as (s' & E & _ & Hu & _). rewrite E in *. simpl in *. auto.
Qed.

(** C5.  A [push_action] made with the lock clear returns normally,
    appends the new action to the pending buffer and empties the undone
    stack, whatever the buffer held; a [redo()] right after it returns
    [true] and leaves the state, and so the list of registry invocations,
    as it was. *)
Theorem push_action_forecloses_redo m fn fp bn bp d s :
  _action_lock s = false ->
  live s ->
  let s1 := exec (push_action fn fp bn bp d) s in
  push_action fn fp bn bp d s = (Return tt, s1) /\
  pending s1 =
    pending s ++ [mkAction (mkDescriptor fn fp) (mkDescriptor bn bp)] /\
  _undone s1 = [] /\
  redo m s1 = (Return true, s1).
Proof.
  intros Hl Hlive s1.
  destruct (push_action_records fn fp bn bp d s Hl Hlive) as (H1 & H2 & H3).
  fold s1 in H1, H2, H3. repeat split; auto.
  unfold redo. now apply redo_with_nothing.
Qed.

Lemma push_action_forecloses_redo_witness :
  _action_lock scenario_undone = false /\
  live scenario_undone /\
  _undone scenario_undone = [0%nat] /\
  let s1 := exec (push_action "set_z" [Num 3] "set_z" [Num 0] (Some 250))
              scenario_undone in
  push_action "set_z" [Num 3] "set_z" [Num 0] (Some 250) scenario_undone
    = (Return tt, s1) /\
  pending s1 =
    pending scenario_undone ++
    [mkAction (mkDescriptor "set_z" [Num 3]) (mkDescriptor "set_z" [Num 0])] /\
  _undone s1 = [] /\
  redo idle s1 = (Return true, s1).
Proof.
  assert (Hl : _action_lock scenario_undone = false) by reflexivity.
  assert (Hlive : live scenario_undone) by (vm_compute; lia).
  split; [exact Hl|]. split; [exact Hlive|]. split; [reflexivity|].
  exact (push_action_forecloses_redo idle "set_z" [Num 3] "set_z" [Num 0]
           (Some 250) scenario_undone Hl Hlive).
Defined.

(** A top-level [undo] of the pending buffer: the buffer is replayed and
    stays where it is. *)
Lemma undo_pending_unlocked m s :
  _action_lock s = false -> _autogroup s = None -> pending s <> [] ->
  let tr := replay_trace m (map backward (pending s)) in
  exists s2,
    undo m s = after_replay (outcome_of (snd tr))
                 (fun s' => set_undone (_undone s' ++ [_actions s]) s')
                 (set_action_lock false s2) /\
    handler_step (fst tr) (set_action_lock true s) s2.
Proof.
  intros Hl Hag Hp tr.
  destruct (undo_unlocked m s s (_actions s) (undo_select_pending s Hag Hp) Hl)
    as (o & s2 & tr' & E & _ & H & _ & Hs).
  destruct (Hs (or_intror (or_introl Hp))) as (-> & -> & _).
  exists s2. split; [exact E|exact H].
Qed.

Lemma undo_pending_frame m s :
  _action_lock s = false -> _autogroup s = None -> pending s <> [] ->
  let s1 := exec (undo m) s in
  _action_lock s1 = false /\ _autogroup s1 = None /\
  _actions s1 = _actions s /\ pending s1 = pending s /\
  invoked s1 =
    invoked s ++ fst (replay_trace m (map backward (pending s))) /\
  result (undo m) s =
    match snd (replay_trace m (map backward (pending s))) with
    | Some e => Throw e
    | None => Return true
    end.
Proof.
  intros Hl Hag Hp s1. subst s1. unfold exec, result.
  destruct (undo_pending_unlocked m s Hl Hag Hp) as (s2 & -> & H).
  destruct H. destruct (hs_timer0 Hag) as [Hag2 _].
  destruct (snd (replay_trace m (map backward (pending s)))); simpl;
    repeat split; auto.
Qed.

(** C2, as the code has it.  After an [undo()] that took the pending
    buffer, a [push_action] made with the lock clear clears nothing of the
    buffer: the undone actions are still in it and the new action comes
    after them.  The undone stack is emptied. *)
Theorem push_action_after_undo_appends m fn fp bn bp d s :
  _action_lock s = false ->
  _autogroup s = None ->
  pending s <> [] ->
  let s1 := exec (undo m) s in
  let s2 := exec (push_action fn fp bn bp d) s1 in
  pending s1 = pending s /\
  pending s2 =
    pending s ++ [mkAction (mkDescriptor fn fp) (mkDescriptor bn bp)] /\
  _undone s2 = [].
Proof.
  intros Hl Hag Hp s1 s2.
  destruct (undo_pending_frame m s Hl Hag Hp) as (Hl1 & _ & _ & Hp1 & _).
  fold s1 in Hl1, Hp1.
  assert (Hlive : live s1) by (apply pending_live; congruence).
  destruct (push_action_records fn fp bn bp d s1 Hl1 Hlive)
    as (_ & H2 & H3).
  fold s2 in H2, H3. rewrite Hp1 in H2. auto.
Qed.

Lemma push_action_after_undo_appends_witness :
  _action_lock pushed_A = false /\
  _autogroup pushed_A = None /\
  pending pushed_A <> [] /\
  pending pushed_A_undone = pending pushed_A /\
  pending pushed_A_undone_pushed_B = pending pushed_A ++ [action_B] /\
  _undone pushed_A_undone_pushed_B = [].
Proof.
  assert (Hp : pending pushed_A <> []) by (vm_compute; discriminate).
  split; [reflexivity|]. split; [reflexivity|]. split; [exact Hp|].
  exact (push_action_after_undo_appends idle "set_y" [Num 2] "set_y" [Num 0]
           None pushed_A eq_refl eq_refl Hp).
Defined.

(** C2 as stated fails: after push A and [undo()], pushing B leaves the
    pending buffer holding A and B, not B alone. *)
Lemma push_action_after_undo_counterexample :
  _action_lock pushed_A_undone = false /\
  _undone pushed_A_undone = [_actions pushed_A] /\
  pending pushed_A_undone_pushed_B = [action_A; action_B] /\
  pending pushed_A_undone_pushed_B <> [action_B].
Proof. vm_compute. repeat split. discriminate. Qed.

Lemma group_actions_timeouts s : timeouts (exec group_actions s) = timeouts s.
Proof.
  unfold exec. destruct (_action_lock s) eqn:Hl.
  - now rewrite group_actions_locked.
  - now rewrite group_actions_unlocked.
Qed.

(** C4.  [group_actions()] forgets the handle of the auto-group timeout
    and cancels nothing: the timeouts scheduled before the call are the
    timeouts scheduled after it.  In the run push A with a delay, then
    [group_actions()], timeout 1 is still scheduled although [_autogroup]
    is [null]; when it fires, [group_actions] runs a second time and
    commits an empty group.  With no timeout on record the call leaves
    handle and timeouts as they are. *)
Theorem group_actions_keeps_timeout_scheduled :
  (forall s, timeouts (exec group_actions s) = timeouts s /\
             _autogroup (exec group_actions s) = None) /\
  _autogroup armed = Some 1%nat /\
  scheduled 1 armed = true /\
  _autogroup armed_grouped = None /\
  scheduled 1 armed_grouped = true /\
  _action_groups armed_grouped = [0%nat] /\
  _action_groups armed_grouped_fired = [0%nat; 1%nat] /\
  deref armed_grouped_fired 1 = [].
Proof.
  split.
  - intros s. split; [apply group_actions_timeouts|apply group_actions_autogroup].
  - vm_compute. repeat split.
Qed.

Lemma set_autogroup_same s : _autogroup s = None -> set_autogroup None s = s.
Proof. destruct s. simpl. now intros ->. Qed.

(** C3.  In every reachable state in which the lock is held,
    [push_action] and [group_actions] return normally and leave the whole
    state as it is: pending buffer, committed and undone stacks, timer
    handle, scheduled timeouts and observed invocations. *)
Theorem locked_calls_are_noops s :
  reachable s ->
  _action_lock s = true ->
  (forall fn fp bn bp d, push_action fn fp bn bp d s = (Return tt, s)) /\
  group_actions s = (Return tt, s).
Proof.
  intros Hr Hl. split.
  - intros. now apply push_action_locked.
  - rewrite group_actions_locked by assumption.
    rewrite set_autogroup_same; [reflexivity|].
    exact (proj1 (reachable_lock_inv s Hr) Hl).
Qed.

Lemma locked_calls_are_noops_witness :
  reachable replaying_A /\
  _action_lock replaying_A = true /\
  (forall fn fp bn bp d,
     push_action fn fp bn bp d replaying_A = (Return tt, replaying_A)) /\
  group_actions replaying_A = (Return tt, replaying_A).
Proof.
  assert (Hr : reachable replaying_A).
  { apply (reach_undo_replay pushed_A 0%nat pushed_A).
    - exact (reach_call idle
               (CallPush "set_x" [Num 1] "set_x" [Num 0] None) init reach_init).
    - reflexivity.
    - reflexivity. }
  split; [exact Hr|]. split; [reflexivity|].
  exact (locked_calls_are_noops replaying_A Hr eq_refl).
Defined.

Lemma forEach_empty f r s : deref s r = [] -> forEach r f s = (Return tt, s).
Proof.
  intros H. unfold forEach, bind, array_length, gets. now rewrite H.
Qed.

Lemma replay_empty invoke r side s :
  deref s r = [] -> replay invoke r side s = (Return tt, s).
Proof.
  intros H. destruct (_action_lock s) eqn:Hl.
  - now apply replay_locked.
  - unfold replay.
    rewrite (bind_Return _ _ s false s) by (unfold gets; now rewrite Hl).
    rewrite (bind_Return _ _ s tt (set_action_lock true s)) by reflexivity.
    unfold try_finally. rewrite forEach_empty by exact H.
    unfold modify. destruct s. simpl in *. now subst.
Qed.

Lemma alter_reverse_empty (st : list (list IHistoricAction)) r :
  default [] (st !! r) = [] -> alter reverse r st = st.
Proof.
  intros H. apply list_eq. intros i. rewrite list_lookup_alter.
  case_decide; [subst|reflexivity].
  destruct (st !! i) as [l|]; simpl in *; [now subst|reflexivity].
Qed.

(** An [undo] that pops an empty group, with the lock held or clear. *)
Lemma undo_empty_group m s gs r :
  _autogroup s = None -> pending s = [] ->
  _action_groups s = gs ++ [r] -> deref s r = [] ->
  undo m s =
  (Return true, set_undone (_undone s ++ [r]) (set_action_groups gs s)).
Proof.
  intros Hag Hp Hg Hr.
  pose proof (undo_select_group s gs r Hag Hp Hg) as E.
  rewrite (alter_reverse_empty _ _ Hr) in E.
  replace (set_store (store s) (set_action_groups gs s))
    with (set_action_groups gs s) in E by now destruct s.
  unfold undo. rewrite (undo_with_replay _ _ _ _ E).
  now rewrite replay_empty.
Qed.

Lemma deref_fresh s r :
  deref (set_store (store s ++ [[]]) s) r =
  deref s r.
Proof.
  unfold deref. cbn [store set_store].
  destruct (decide (r < length (store s))%nat) as [H|H].
  - now rewrite lookup_app_l.
  - rewrite lookup_app_r by lia. rewrite (lookup_ge_None_2 (store s)) by lia.
    now destruct (r - length (store s))%nat as [|[|?]].
Qed.

(** C8.  With the lock clear and nothing pending, [group_actions()]
    pushes the empty pending array onto the committed stack.  An [undo()]
    that pops an empty group - right after that call, or in any later
    state in which that group is on top - returns [true], invokes nothing,
    pushes the empty group onto the undone stack and leaves the groups
    below it committed. *)
Theorem empty_group_is_undone_alone m s :
  _action_lock s = false ->
  pending s = [] ->
  let s1 := exec group_actions s in
  (group_actions s = (Return tt, s1) /\
   _action_groups s1 = _action_groups s ++ [_actions s] /\
   deref s1 (_actions s) = []) /\
  (let s2 := exec (undo m) s1 in
   undo m s1 = (Return true, s2) /\
   invoked s2 = invoked s1 /\
   _undone s2 = [_actions s] /\
   deref s2 (_actions s) = [] /\
   _action_groups s2 = _action_groups s) /\
  (forall s' gs,
     _autogroup s' = None -> pending s' = [] ->
     _action_groups s' = gs ++ [_actions s] ->
     deref s' (_actions s) = [] ->
     undo m s' =
     (Return true,
      set_undone (_undone s' ++ [_actions s]) (set_action_groups gs s'))).
Proof.
  intros Hl Hp s1.
  assert (E1 : group_actions s = (Return tt, s1)).
  { unfold s1, exec. now rewrite group_actions_unlocked. }
  assert (Hd : deref s1 (_actions s) = []).
  { unfold s1, exec. rewrite group_actions_unlocked by assumption.
    exact (eq_trans (deref_fresh s (_actions s)) Hp). }
  assert (Hg : _action_groups s1 = _action_groups s ++ [_actions s]).
  { unfold s1, exec. now rewrite group_actions_unlocked. }
  assert (Hp1 : pending s1 = []).
  { unfold s1, exec. rewrite group_actions_unlocked by assumption.
    unfold pending, deref. simpl. rewrite lookup_app_r by lia.
    now rewrite Nat.sub_diag. }
  assert (Hag : _autogroup s1 = None) by apply group_actions_autogroup.
  assert (Hu : _undone s1 = []).
  { unfold s1, exec. now rewrite group_actions_unlocked. }
  split; [auto|]. split.
  - unfold exec.
    rewrite (undo_empty_group m s1 _ _ Hag Hp1 Hg Hd). simpl.
    rewrite Hu. repeat split; auto.
  - intros s' gs. apply undo_empty_group.
Qed.

Lemma empty_group_is_undone_alone_witness :
  _action_lock scenario_grouped = false /\
  pending scenario_grouped = [] /\
  let s1 := exec group_actions scenario_grouped in
  let s2 := exec (undo idle) s1 in
  _action_groups scenario_grouped = [0%nat] /\
  _action_groups s1 = [0%nat; 1%nat] /\
  deref s1 1 = [] /\
  undo idle s1 = (Return true, s2) /\
  invoked s2 = invoked s1 /\
  _undone s2 = [1%nat] /\
  _action_groups s2 = [0%nat].
Proof.
  pose proof (empty_group_is_undone_alone idle scenario_grouped
                eq_refl eq_refl) as ((H1 & H2 & H3) & (H4 & H5 & H6 & H7 & H8) & _).
  split; [reflexivity|]. split; [reflexivity|].
  intros s1 s2. split; [reflexivity|].
  split; [exact H2|]. split; [exact H3|]. split; [exact H4|].
  split; [exact H5|]. split; [exact H6|exact H8].
Defined.

(** C7, as the code has it.  An [undo()] that selects a unit and returns
    normally has pushed that unit on top of the undone stack.  It returns
    normally when the lock was already held (the replay is skipped, and
    the unit is pushed on the stack as it was) and when no handler
    fails. *)
Theorem undo_pushes_selected_unit m s s1 r :
  undo_select s = (Return (Some r), s1) ->
  (forall b s', undo m s = (Return b, s') ->
                b = true /\ exists u, _undone s' = u ++ [r]) /\
  (_action_lock s = true ->
   undo m s = (Return true, set_undone (_undone s1 ++ [r]) s1) /\
   invoked s1 = invoked s) /\
  ((forall n ps, raises (m n ps) = None) ->
   exists s', undo m s = (Return true, s')).
Proof.
  intros E.
  destruct (undo_select_frame s) as (sel & s1' & E' & Hl1 & _ & Hinv).
  rewrite E in E'. injection E' as <- <-.
  destruct (_action_lock s) eqn:Hl.
  - rewrite (undo_locked m s s1 r E Hl1). split; [|split].
    + intros b s' [= <- <-]. split; [reflexivity|]. simpl. eauto.
    + auto.
    + eauto.
  - destruct (undo_unlocked m s s1 r E Hl1)
      as (o & s2 & tr & -> & Ho & H & Hthrow & _).
    split; [|split].
    + destruct o as [[]|e|]; simpl; try discriminate.
      intros b s' [= <- <-]. split; [reflexivity|]. simpl. eauto.
    + discriminate.
    + intros Hm. destruct o as [[]|e|]; simpl; [eauto| |congruence].
      destruct (Hthrow e eq_refl) as (n & ps & _ & _ & Hr).
      rewrite Hm in Hr. discriminate.
Qed.

Lemma undo_pushes_selected_unit_witness :
  undo_select replaying_A = (Return (Some 0%nat), replaying_A) /\
  _action_lock replaying_A = true /\
  undo failing replaying_A =
    (Return true, set_undone [0%nat] replaying_A) /\
  undo_select scenario_grouped =
    (Return (Some 0%nat), exec undo_select scenario_grouped) /\
  exists s', undo idle scenario_grouped = (Return true, s') /\
             exists u, _undone s' = u ++ [0%nat].
Proof.
  split; [reflexivity|]. split; [reflexivity|]. split.
  - exact (proj1 (proj1 (proj2
             (undo_pushes_selected_unit failing replaying_A replaying_A 0%nat
                eq_refl)) eq_refl)).
  - split; [reflexivity|].
    destruct (undo_pushes_selected_unit idle scenario_grouped
                (exec undo_select scenario_grouped) 0%nat eq_refl)
      as (Hret & _ & Htot).
    destruct (Htot (fun _ _ => eq_refl)) as (s' & Es).
    exists s'. split; [exact Es|]. exact (proj2 (Hret true s' Es)).
Defined.

(** C7 as stated fails where a replay invocation fails: with the group
    [A; B] committed and a registry whose [set_x] handler throws, [undo()]
    selects the group, throws, and leaves it neither committed nor
    undone. *)
Lemma undo_failure_drops_unit_counterexample :
  undo_select scenario_grouped =
    (Return (Some 0%nat), exec undo_select scenario_grouped) /\
  result (undo failing) scenario_grouped = Throw (Str "boom") /\
  _undone (exec (undo failing) scenario_grouped) = [] /\
  _action_groups (exec (undo failing) scenario_grouped) = [].
Proof. vm_compute. repeat split. Qed.

Lemma map_invocation_snoc (side : IHistoricAction -> Descriptor) pre a :
  map invocation_of (map side pre ++ [side a]) =
  map invocation_of (map side (pre ++ [a])).
Proof. now rewrite !map_app. Qed.

Lemma replay_trace_unit_fails m side (pre : list IHistoricAction) a post e :
  (forall b, b ∈ pre ->
     raises (m (name (side b)) (parameters (side b))) = None) ->
  raises (m (name (side a)) (parameters (side a))) = Some e ->
  replay_trace m (map side (pre ++ a :: post)) =
  (map invocation_of (map side (pre ++ [a])), Some e).
Proof.
  intros Hpre Ha. rewrite map_app. simpl.
  rewrite (replay_trace_fails m (map side pre) (side a) (map side post) e).
  - now rewrite map_invocation_snoc.
  - intros d Hd. apply list_elem_of_In, in_map_iff in Hd.
    destruct Hd as (b & <- & Hb). apply Hpre. now apply list_elem_of_In.
  - exact Ha.
Qed.

(** C6.  When a handler fails during the replay of [undo()] or [redo()]:
    the method ends by throwing the very value the handler threw, the lock
    is clear afterwards, and the failing invocation is the last one made -
    nothing is invoked to retry it or to take back the earlier ones.
    Where no handler can reverse the replayed array during the replay
    ([stable]: no handler calls [undo], or something is pending, or the
    array is no other entry of the two stacks), the invocations made are
    exactly those of the actions up to and including the failing one. *)
Theorem replay_failure_propagates m s :
  (forall e s',
     undo m s = (Throw e, s') \/ redo m s = (Throw e, s') ->
     _action_lock s = false /\ _action_lock s' = false /\
     exists n ps tr,
       raises (m n ps) = Some e /\
       invoked s' = invoked s ++ tr ++ [(n, ps)]) /\
  (forall s1 r (pre : list IHistoricAction) a post e,
     _action_lock s = false ->
     undo_select s = (Return (Some r), s1) ->
     stable m r s1 ->
     deref s1 r = pre ++ a :: post ->
     (forall b, b ∈ pre ->
        raises (m (name (backward b)) (parameters (backward b))) = None) ->
     raises (m (name (backward a)) (parameters (backward a))) = Some e ->
     exists s',
       undo m s = (Throw e, s') /\ _action_lock s' = false /\
       invoked s' =
         invoked s ++ map invocation_of (map backward (pre ++ [a]))) /\
  (forall rest r (pre : list IHistoricAction) a post e,
     _action_lock s = false ->
     _undone s = rest ++ [r] ->
     stable m r (set_undone rest s) ->
     deref s r = pre ++ a :: post ->
     (forall b, b ∈ pre ->
        raises (m (name (forward b)) (parameters (forward b))) = None) ->
     raises (m (name (forward a)) (parameters (forward a))) = Some e ->
     exists s',
       redo m s = (Throw e, s') /\ _action_lock s' = false /\
       invoked s' =
         invoked s ++ map invocation_of (map forward (pre ++ [a]))).
Proof.
  split; [|split].
  - intros e s' [E|E].
    + destruct (undo_select_frame s) as ([r|] & s1 & Es & Hl1 & _ & Hinv).
      * destruct (_action_lock s) eqn:Hl.
        -- rewrite (undo_locked m s s1 r Es Hl1) in E. discriminate.
        -- destruct (undo_unlocked m s s1 r Es Hl1)
             as (o & s2 & tr & E2 & Ho & H & Hthrow & _).
           rewrite E2 in E. destruct o as [[]|e'|]; simpl in E;
             try discriminate. injection E as -> <-.
           destruct (Hthrow e eq_refl) as (n & ps & tr' & -> & Hr).
           repeat split; auto. exists n, ps, tr'. split; [exact Hr|].
           simpl. rewrite (hs_invoked _ _ _ H). simpl. now rewrite Hinv.
      * unfold undo in E. rewrite (undo_with_nothing _ _ _ Es) in E.
        discriminate.
    + destruct (pop_cases (_undone s)) as [[Eu _]|(rest & r & Eu & _)].
      * unfold redo in E. rewrite (redo_with_nothing _ _ Eu) in E.
        discriminate.
      * destruct (_action_lock s) eqn:Hl.
        -- rewrite (redo_locked m s rest r Eu Hl) in E. discriminate.
        -- destruct (redo_unlocked m s rest r Eu Hl)
             as (o & s2 & tr & E2 & Ho & H & Hthrow & _).
           rewrite E2 in E. destruct o as [[]|e'|]; simpl in E;
             try discriminate. injection E as -> <-.
           destruct (Hthrow e eq_refl) as (n & ps & tr' & -> & Hr).
           repeat split; auto. exists n, ps, tr'. split; [exact Hr|].
           simpl. now rewrite (hs_invoked _ _ _ H).
  - intros s1 r pre a post e Hl Es Hst Hd Hpre Ha.
    destruct (undo_select_frame s) as (sel & s1' & Es' & Hl1 & _ & Hinv).
    rewrite Es in Es'. injection Es' as <- <-. rewrite Hl in Hl1.
    destruct (undo_unlocked m s s1 r Es Hl1)
      as (o & s2 & tr & E2 & _ & H & _ & Htr).
    destruct (Htr Hst) as (-> & -> & _).
    rewrite Hd, (replay_trace_unit_fails m backward pre a post e Hpre Ha)
      in E2, H.
    simpl in E2, H. eexists. split; [exact E2|]. split; [reflexivity|].
    simpl. rewrite (hs_invoked _ _ _ H). simpl. now rewrite Hinv.
  - intros rest r pre a post e Hl Eu Hst Hd Hpre Ha.
    destruct (redo_unlocked m s rest r Eu Hl)
      as (o & s2 & tr & E2 & _ & H & _ & Htr).
    destruct (Htr Hst) as (-> & -> & _).
    rewrite Hd, (replay_trace_unit_fails m forward pre a post e Hpre Ha)
      in E2, H.
    simpl in E2, H. eexists. split; [exact E2|]. split; [reflexivity|].
    simpl. now rewrite (hs_invoked _ _ _ H).
Qed.

Lemma replay_failure_propagates_witness :
  (undo failing scenario_grouped =
     (Throw (Str "boom"), exec (undo failing) scenario_grouped) /\
   _action_lock (exec (undo failing) scenario_grouped) = false /\
   exists n ps tr,
     raises (failing n ps) = Some (Str "boom") /\
     invoked (exec (undo failing) scenario_grouped) =
       invoked scenario_grouped ++ tr ++ [(n, ps)]) /\
  (exists s',
     undo failing scenario_grouped = (Throw (Str "boom"), s') /\
     _action_lock s' = false /\
     invoked s' =
       invoked scenario_grouped ++ [("set_y", [Num 0]); ("set_x", [Num 0])]) /\
  (exists s',
     redo failing scenario_undone = (Throw (Str "boom"), s') /\
     _action_lock s' = false /\
     invoked s' =
       invoked scenario_undone ++ [("set_y", [Num 2]); ("set_x", [Num 1])]).
Proof.
  split; [|split].
  - split; [reflexivity|].
    exact (proj2 (proj1 (replay_failure_propagates failing scenario_grouped)
                    (Str "boom") (exec (undo failing) scenario_grouped)
                    (or_introl eq_refl))).
  - refine (proj1 (proj2 (replay_failure_propagates failing scenario_grouped))
              (exec undo_select scenario_grouped) 0%nat [action_B] action_A []
              (Str "boom") eq_refl eq_refl _ eq_refl _ eq_refl).
    + right. right. split; apply not_elem_of_nil.
    + intros b Hb. apply list_elem_of_singleton in Hb. now subst.
  - refine (proj2 (proj2 (replay_failure_propagates failing scenario_undone))
              [] 0%nat [action_B] action_A [] (Str "boom")
              eq_refl eq_refl _ eq_refl _ eq_refl).
    + right. right. split; apply not_elem_of_nil.
    + intros b Hb. apply list_elem_of_singleton in Hb. now subst.
Defined.

(** C9.  With no timeout on record and a non-empty pending buffer,
    [undo()] leaves [_actions] and the array behind it as they were: the
    next [undo()] selects the same unit again and, called with the lock
    clear, makes the same invocations in the same order and ends the same
    way as the first. *)
Theorem undo_keeps_pending m s :
  _autogroup s = None ->
  pending s <> [] ->
  let s1 := exec (undo m) s in
  let s2 := exec (undo m) s1 in
  _actions s1 = _actions s /\
  pending s1 = pending s /\
  undo_select s1 = (Return (Some (_actions s)), s1) /\
  pending s2 = pending s /\
  (_action_lock s = false ->
   let tr := replay_trace m (map backward (pending s)) in
   invoked s1 = invoked s ++ fst tr /\
   invoked s2 = invoked s1 ++ fst tr /\
   result (undo m) s1 = result (undo m) s /\
   ((forall a, a ∈ pending s ->
       raises (m (name (backward a)) (parameters (backward a))) = None) ->
    fst tr = map invocation_of (map backward (pending s)) /\
    result (undo m) s = Return true)).
Proof.
  intros Hag Hp s1 s2.
  assert (H1 : _action_lock s1 = _action_lock s /\ _autogroup s1 = None /\
               _actions s1 = _actions s /\ pending s1 = pending s).
  { destruct (_action_lock s) eqn:Hl.
    - unfold s1, exec.
      rewrite (undo_locked m s s _ (undo_select_pending s Hag Hp) Hl).
      simpl. auto.
    - destruct (undo_pending_frame m s Hl Hag Hp) as (Ha & Hb & Hc & Hd & _).
      unfold s1. rewrite Ha. auto. }
  destruct H1 as (Hl1 & Hag1 & Ha1 & Hp1).
  assert (Hp1' : pending s1 <> []) by congruence.
  assert (H2 : pending s2 = pending s1).
  { destruct (_action_lock s1) eqn:Hl.
    - unfold s2, exec.
      rewrite (undo_locked m s1 s1 _ (undo_select_pending s1 Hag1 Hp1') Hl).
      reflexivity.
    - now destruct (undo_pending_frame m s1 Hl Hag1 Hp1') as (? & ? & ? & ? & _). }
  split; [exact Ha1|]. split; [exact Hp1|]. split.
  { rewrite <- Ha1. now apply undo_select_pending. }
  split; [congruence|].
  intros Hl tr. rewrite Hl in Hl1.
  destruct (undo_pending_frame m s Hl Hag Hp) as (_ & _ & _ & _ & Hi & Hr).
  destruct (undo_pending_frame m s1 Hl1 Hag1 Hp1') as (_ & _ & _ & _ & Hi1 & Hr1).
  fold s1 in Hi. fold s2 in Hi1. rewrite Hp1 in Hi1, Hr1. fold tr in Hi, Hi1, Hr, Hr1.
  split; [exact Hi|]. split; [exact Hi1|]. split; [congruence|].
  intros Hm. rewrite Hr. unfold tr. rewrite replay_trace_total; [auto|].
  intros d Hd. apply list_elem_of_In, in_map_iff in Hd.
  destruct Hd as (b & <- & Hb). apply Hm. now apply list_elem_of_In.
Qed.

Lemma undo_keeps_pending_witness :
  _autogroup scenario_pushed = None /\
  pending scenario_pushed <> [] /\
  _action_lock scenario_pushed = false /\
  let s1 := exec (undo recording) scenario_pushed in
  let s2 := exec (undo recording) s1 in
  pending s1 = [action_A; action_B] /\
  undo_select s1 = (Return (Some 0%nat), s1) /\
  pending s2 = [action_A; action_B] /\
  invoked s1 = [("set_x", [Num 0]); ("set_y", [Num 0])] /\
  invoked s2 = invoked s1 ++ [("set_x", [Num 0]); ("set_y", [Num 0])].
Proof.
  assert (Hp : pending scenario_pushed <> []) by (vm_compute; discriminate).
  split; [reflexivity|]. split; [exact Hp|]. split; [reflexivity|].
  destruct (undo_keeps_pending recording scenario_pushed eq_refl Hp)
    as (_ & H1 & H2 & H3 & H4).
  destruct (H4 eq_refl) as (H5 & H6 & _).
  intros s1 s2. split; [exact H1|]. split; [exact H2|]. split; [exact H3|].
  split; [exact H5|exact H6].
Defined.

Lemma replay_trace_unit_total m side (l : list IHistoricAction) :
  (forall a, a ∈ l ->
     raises (m (name (side a)) (parameters (side a))) = None) ->
  replay_trace m (map side l) = (map invocation_of (map side l), None).
Proof.
  intros H. apply replay_trace_total.
  intros d Hd. apply list_elem_of_In, in_map_iff in Hd.
  destruct Hd as (b & <- & Hb). apply H. now apply list_elem_of_In.
Qed.






(** * The rest of the class *)

(** ** Replays with handlers that do not call back *)

Lemma set_invoked_twice l l' s :
  set_invoked l (set_invoked l' s) = set_invoked l s.
Proof. reflexivity. Qed.

Lemma forEach_from_silent m side r :
  silent m ->
  forall n k s,
    let tr := replay_trace m (map side (take n (drop k (deref s r)))) in
    forEach_from r (callback (map_invoke m) side) k n s =
    (outcome_of (snd tr), set_invoked (invoked s ++ fst tr) s).
Proof.
  intros Hm. induction n as [|n IH]; intros k s tr; subst tr.
  - rewrite take_0. simpl. unfold ret. rewrite app_nil_r. now destruct s.
  - simpl forEach_from.
    destruct (deref s r !! k) as [a|] eqn:Ea.
    + rewrite (bind_Return _ _ s (Some a) s)
        by (unfold array_get, gets; now rewrite Ea).
      rewrite (drop_lookup_Some _ _ _ Ea). simpl.
      set (i := (name (side a), parameters (side a))).
      assert (Eh : callback (map_invoke m) side a s =
                   (outcome_of (raises (m (name (side a)) (parameters (side a)))),
                    set_invoked (invoked s ++ [i]) s)).
      { unfold callback, map_invoke. simpl. unfold run_handler.
        rewrite Hm. simpl.
        rewrite (bind_Return _ _ s tt (set_invoked (invoked s ++ [i]) s))
          by reflexivity.
        rewrite (bind_Return _ _ _ tt (set_invoked (invoked s ++ [i]) s))
          by reflexivity.
        now destruct (raises _). }
      destruct (raises (m (name (side a)) (parameters (side a)))) as [e|].
      * now rewrite (bind_Throw _ _ _ _ _ Eh).
      * rewrite (bind_Return _ _ _ _ _ Eh).
        specialize (IH (S k) (set_invoked (invoked s ++ [i]) s)).
        simpl in IH.
        change (deref (set_invoked (invoked s ++ [i]) s) r) with (deref s r)
          in IH.
        rewrite IH. destruct (replay_trace _ _) as [tr o]. simpl.
        now rewrite set_invoked_twice, <- app_assoc.
    + rewrite (bind_Return _ _ s None s)
        by (unfold array_get, gets; now rewrite Ea).
      rewrite (bind_Return _ _ s tt s) by reflexivity.
      rewrite (drop_lookup_None _ _ Ea), take_nil. simpl.
      specialize (IH (S k) s). simpl in IH.
      rewrite (drop_lookup_None (deref s r) (S k)) in IH
        by (apply lookup_ge_None; apply lookup_ge_None in Ea; lia).
      rewrite take_nil in IH. exact IH.
Qed.

Lemma replay_silent m side r s :
  silent m -> _action_lock s = false ->
  let tr := replay_trace m (map side (deref s r)) in
  replay (map_invoke m) r side s =
  (outcome_of (snd tr), set_invoked (invoked s ++ fst tr) s).
Proof.
  intros Hm Hl tr. unfold replay.
  rewrite (bind_Return _ _ s false s) by (unfold gets; now rewrite Hl).
  rewrite (bind_Return _ _ s tt (set_action_lock true s)) by reflexivity.
  unfold try_finally, forEach.
  rewrite (bind_Return _ _ _ (length (deref s r)) (set_action_lock true s))
    by reflexivity.
  change (fun action => _) with (callback (map_invoke m) side).
  rewrite (forEach_from_silent m side r Hm).
  change (deref (set_action_lock true s) r) with (deref s r).
  rewrite drop_0, firstn_all. fold tr.
  unfold modify. destruct s. simpl in *. subst.
  now destruct (snd tr).
Qed.

Lemma undo_silent m s s1 r :
  silent m ->
  undo_select s = (Return (Some r), s1) ->
  _action_lock s1 = false ->
  let tr := replay_trace m (map backward (deref s1 r)) in
  undo m s =
  after_replay (outcome_of (snd tr))
    (fun s' => set_undone (_undone s' ++ [r]) s')
    (set_invoked (invoked s1 ++ fst tr) s1).
Proof.
  intros Hm E Hl tr. unfold undo. rewrite (undo_with_replay _ _ _ _ E).
  now rewrite (replay_silent m backward r s1 Hm Hl).
Qed.

Lemma redo_silent m s rest r :
  silent m ->
  _undone s = rest ++ [r] ->
  _action_lock s = false ->
  let tr := replay_trace m (map forward (deref s r)) in
  redo m s =
  after_replay (outcome_of (snd tr))
    (fun s' => set_action_groups (_action_groups s' ++ [r]) s')
    (set_invoked (invoked s ++ fst tr) (set_undone rest s)).
Proof.
  intros Hm E Hl tr. unfold redo. rewrite (redo_with_replay _ _ _ _ E).
  now rewrite (replay_silent m forward r (set_undone rest s) Hm Hl).
Qed.

(** ** Edge cases and the lock *)

(** X1.  With no timeout on record, nothing pending and nothing
    committed, [undo()] returns [true] and changes nothing; with nothing
    undone, [redo()] returns [true] and changes nothing.  Neither invokes
    the registry. *)
Theorem nothing_to_undo_or_redo m s :
  (_autogroup s = None -> pending s = [] -> _action_groups s = [] ->
   undo m s = (Return true, s)) /\
  (_undone s = [] -> redo m s = (Return true, s)).
Proof.
  split.
  - intros Hag Hp Hg. unfold undo.
    now rewrite (undo_with_nothing _ _ _ (undo_select_none s Hag Hp Hg)).
  - intros Hu. unfold redo. now apply redo_with_nothing.
Qed.

Lemma nothing_to_undo_or_redo_witness :
  _autogroup init = None /\ pending init = [] /\ _action_groups init = [] /\
  _undone init = [] /\
  undo failing init = (Return true, init) /\
  redo failing init = (Return true, init).
Proof.
  split; [reflexivity|]. split; [reflexivity|]. split; [reflexivity|].
  split; [reflexivity|]. split.
  - exact (proj1 (nothing_to_undo_or_redo failing init)
             eq_refl eq_refl eq_refl).
  - exact (proj2 (nothing_to_undo_or_redo failing init) eq_refl).
Defined.

(** X2.  Called while the lock is held, [undo()] and [redo()] never reach
    the registry and never throw: [undo] returns [true] with the lock
    still held, the pending buffer and the observed invocations as they
    were; [redo] moves the unit on top of the undone stack to the
    committed stack without replaying it. *)
Theorem locked_undo_redo_replay_nothing m s :
  _action_lock s = true ->
  (exists s', undo m s = (Return true, s') /\
              invoked s' = invoked s /\ _action_lock s' = true /\
              _actions s' = _actions s /\ pending s' = pending s) /\
  (forall rest r, _undone s = rest ++ [r] ->
     redo m s =
     (Return true,
      set_action_groups (_action_groups s ++ [r]) (set_undone rest s))) /\
  (_undone s = [] -> redo m s = (Return true, s)).
Proof.
  intros Hl. split; [|split].
  - destruct (undo_with_locked s Hl) as (s' & E & L).
    exists s'. unfold undo. rewrite (E _). destruct L.
    rewrite app_nil_r in hs_invoked0. auto.
  - intros rest r Hu. now apply redo_locked.
  - intros Hu. unfold redo. now apply redo_with_nothing.
Qed.

Lemma locked_undo_redo_replay_nothing_witness :
  _action_lock locked_undone = true /\
  _undone locked_undone = [] ++ [0%nat] /\
  (exists s', undo failing locked_undone = (Return true, s') /\
              invoked s' = invoked locked_undone /\
              _action_lock s' = true /\
              _actions s' = _actions locked_undone /\
              pending s' = pending locked_undone) /\
  redo failing locked_undone =
    (Return true,
     set_action_groups [0%nat] (set_undone [] locked_undone)).
Proof.
  split; [reflexivity|]. split; [reflexivity|].
  destruct (locked_undo_redo_replay_nothing failing locked_undone eq_refl)
    as (H1 & H2 & _).
  split; [exact H1|]. exact (H2 [] 0%nat eq_refl).
Defined.

Lemma undo_lock m s : _action_lock (exec (undo m) s) = _action_lock s.
Proof.
  unfold exec, undo.
  destruct (undo_select_frame s) as ([r|] & s1 & E & Hl1 & _).
  - rewrite (undo_with_replay _ _ _ _ E).
    destruct (replay_frame m r backward s1) as (o & s2 & -> & Ho & Hl2 & _).
    destruct o as [[]|e|]; simpl; congruence.
  - now rewrite (undo_with_nothing _ _ _ E).
Qed.

Lemma redo_lock m s : _action_lock (exec (redo m) s) = _action_lock s.
Proof.
  unfold exec, redo.
  destruct (pop_cases (_undone s)) as [[E _]|(rest & r & E & _)].
  - now rewrite (redo_with_nothing _ _ E).
  - rewrite (redo_with_replay _ _ _ _ E).
    destruct (replay_frame m r forward (set_undone rest s))
      as (o & s2 & -> & Ho & Hl2 & _).
    destruct o as [[]|e|]; simpl in *; congruence.
Qed.

Lemma group_actions_lock s :
  _action_lock (exec group_actions s) = _action_lock s.
Proof.
  unfold exec. destruct (_action_lock s) eqn:Hl.
  - now rewrite group_actions_locked.
  - now rewrite group_actions_unlocked.
Qed.

Lemma push_action_lock fn fp bn bp d s :
  _action_lock (exec (push_action fn fp bn bp d) s) = _action_lock s.
Proof.
  unfold exec. destruct (_action_lock s) eqn:Hl.
  - now rewrite push_action_locked.
  - now destruct (push_action_unlocked fn fp bn bp d s Hl) as (s' & -> & ? & _).
Qed.

(** X3.  Every method leaves the lock as it found it, whether it returns
    or throws: [undo] and [redo] release it in their [finally] blocks when
    they took it, and neither [push_action], [group_actions] nor a firing
    timeout touches it. *)
Theorem methods_leave_lock_as_found m s :
  (forall fn fp bn bp d,
     _action_lock (exec (push_action fn fp bn bp d) s) = _action_lock s) /\
  _action_lock (exec group_actions s) = _action_lock s /\
  _action_lock (exec (undo m) s) = _action_lock s /\
  _action_lock (exec (redo m) s) = _action_lock s /\
  (forall h, _action_lock (exec (fire h) s) = _action_lock s).
Proof.
  split; [intros; apply push_action_lock|].
  split; [apply group_actions_lock|].
  split; [apply undo_lock|]. split; [apply redo_lock|].
  intros h. unfold exec, fire, bind, gets. simpl.
  destruct (scheduled h s); [|reflexivity].
  exact (group_actions_lock
           (set_timeouts (filter (fun t => fst t <> h) (timeouts s)) s)).
Qed.

(** X4.  In every reachable state, while the lock is held and whenever
    something can be redone, no auto-group timeout is on record:
    [push_action] arms one only after emptying the undone stack and only
    with the lock clear, and [undo] disarms it before it replays. *)
Theorem no_timeout_on_record_while_redoable s :
  reachable s ->
  _action_lock s = true \/ _undone s <> [] ->
  _autogroup s = None.
Proof.
  intros Hr [H|H]; [exact (proj1 (reachable_lock_inv s Hr) H)|].
  exact (proj2 (reachable_lock_inv s Hr) H).
Qed.

Lemma no_timeout_on_record_while_redoable_witness :
  reachable pushed_A_undone /\
  _undone pushed_A_undone <> [] /\
  _autogroup pushed_A_undone = None.
Proof.
  assert (Hr : reachable pushed_A_undone).
  { exact (reach_call idle CallUndo pushed_A
             (reach_call idle (CallPush "set_x" [Num 1] "set_x" [Num 0] None)
                init reach_init)). }
  assert (Hu : _undone pushed_A_undone <> []) by (vm_compute; discriminate).
  split; [exact Hr|]. split; [exact Hu|].
  exact (no_timeout_on_record_while_redoable pushed_A_undone Hr
           (or_intror Hu)).
Defined.

(** ** Timeouts *)

Lemma replay_frame_timers m r side s :
  exists o s',
    replay (map_invoke m) r side s = (o, s') /\
    next_handle s' = next_handle s /\
    (_autogroup s = None -> _autogroup s' = None /\ timeouts s' = timeouts s).
Proof.
  destruct (_action_lock s) eqn:Hl.
  - exists (Return tt), s. rewrite replay_locked by assumption. auto.
  - destruct (replay_unlocked m side r s Hl) as (o & s' & tr & E & Ho & H & _).
    exists o, (set_action_lock false s'). unfold map_invoke. rewrite (E 0%nat).
    destruct H. auto.
Qed.

Lemma undo_select_timers s sel s1 :
  undo_select s = (Return sel, s1) ->
  next_handle s1 = next_handle s /\
  (forall t, t ∈ timeouts s1 -> t ∈ timeouts s).
Proof.
  destruct s as [acts groups und ag lock st tm nh inv].
  unfold undo_select, undo_prelude, select_undo, group_actions, clearTimeout,
    array_new, array_length, array_reverse, bind, gets, modify, ret.
  cbn.
  destruct ag as [h|], lock; cbn;
    repeat match goal with
           | |- context [if ?b then _ else _] => destruct b; cbn
           | |- context [match pop ?l with _ => _ end] =>
               destruct (pop l) as [[? ?]|]; cbn
           end;
    intros [= <- <-]; cbn; (split; [reflexivity|]); intros t Ht; auto;
    now apply list_elem_of_filter in Ht.
Qed.

Lemma undo_timers m s :
  next_handle (exec (undo m) s) = next_handle s /\
  (forall t, t ∈ timeouts (exec (undo m) s) -> t ∈ timeouts s).
Proof.
  unfold exec, undo.
  destruct (undo_select_frame s) as ([r|] & s1 & E & _ & Hag & _).
  - destruct (undo_select_timers _ _ _ E) as [Hn Ht].
    rewrite (undo_with_replay _ _ _ _ E).
    destruct (replay_frame_timers m r backward s1) as (o & s2 & -> & Hn2 & H2).
    destruct (H2 Hag) as [_ Ht2].
    destruct o as [[]|e|]; simpl; rewrite ?Ht2; split; auto; congruence.
  - rewrite (undo_with_nothing _ _ _ E). simpl.
    exact (undo_select_timers _ _ _ E).
Qed.

Lemma redo_timers m s :
  _autogroup s = None ->
  next_handle (exec (redo m) s) = next_handle s /\
  timeouts (exec (redo m) s) = timeouts s.
Proof.
  intros Hag. unfold exec, redo.
  destruct (pop_cases (_undone s)) as [[E _]|(rest & r & E & _)].
  - now rewrite (redo_with_nothing _ _ E).
  - rewrite (redo_with_replay _ _ _ _ E).
    destruct (replay_frame_timers m r forward (set_undone rest s))
      as (o & s2 & -> & Hn2 & H2).
    destruct (H2 Hag) as [_ Ht2].
    destruct o as [[]|e|]; simpl in *; auto.
Qed.

Lemma scheduled_last h d tm s :
  scheduled h (set_timeouts (tm ++ [(h, d)]) s) = true.
Proof.
  unfold scheduled. simpl. rewrite existsb_app. simpl.
  rewrite Nat.eqb_refl. now rewrite orb_true_r.
Qed.

Lemma scheduled_elem h s :
  scheduled h s = true <-> exists d, (h, d) ∈ timeouts s.
Proof.
  unfold scheduled. rewrite existsb_exists. split.
  - intros ([h' d] & Hin & Heq). apply Nat.eqb_eq in Heq. simpl in Heq.
    subst. exists d. now apply list_elem_of_In.
  - intros (d & Hin). exists (h, d). split; [now apply list_elem_of_In|].
    apply Nat.eqb_refl.
Qed.

Lemma timers_ok_of_frame s s' :
  timers_ok s ->
  next_handle s' = next_handle s ->
  (forall t, t ∈ timeouts s' -> t ∈ timeouts s) ->
  _autogroup s' = None ->
  timers_ok s'.
Proof.
  intros [H1 H2] Hn Ht Hag. split.
  - intros t Hin. rewrite Hn. now apply H1, Ht.
  - intros h Hh. congruence.
Qed.

Lemma push_action_timers_ok fn fp bn bp d s :
  _action_lock s = false -> timers_ok s ->
  timers_ok (exec (push_action fn fp bn bp d) s).
Proof.
  intros Hl [H1 H2]. unfold exec, push_action, bind, gets. simpl. rewrite Hl.
  destruct d as [delay|]; simpl.
  - assert (Hfresh : forall (tm : list (nat * Z)),
              (forall t, t ∈ tm -> t ∈ timeouts s) ->
              forall t, t ∈ tm ++ [(next_handle s, delay)] ->
                        (fst t < S (next_handle s))%nat).
    { intros tm Hsub t Hin. apply elem_of_app in Hin.
      destruct Hin as [Hin|Hin].
      - specialize (H1 t (Hsub t Hin)). lia.
      - apply list_elem_of_singleton in Hin. subst. simpl. lia. }
    destruct (_autogroup s) as [h0|]; simpl; split.
    + apply Hfresh. intros t Ht. now apply list_elem_of_filter in Ht.
    + intros h [= <-]. apply scheduled_last.
    + now apply Hfresh.
    + intros h [= <-]. apply scheduled_last.
  - split; [exact H1|exact H2].
Qed.

Lemma group_actions_timers_ok s : timers_ok s -> timers_ok (exec group_actions s).
Proof.
  intros H. apply (timers_ok_of_frame s); auto.
  - unfold exec. destruct (_action_lock s) eqn:Hl.
    + now rewrite group_actions_locked.
    + now rewrite group_actions_unlocked.
  - intros t. now rewrite group_actions_timeouts.
  - apply group_actions_autogroup.
Qed.

Lemma clearTimeout_timers_ok h s :
  timers_ok s ->
  timers_ok (set_autogroup None
               (set_timeouts (filter (fun t => fst t <> h) (timeouts s)) s)).
Proof.
  intros H. apply (timers_ok_of_frame s); auto.
  intros t Ht. simpl in Ht. now apply list_elem_of_filter in Ht.
Qed.

Lemma reachable_timers_ok s : reachable s -> timers_ok s.
Proof.
  induction 1 as [|m c s Hs IH|h s Hs IH Hl|s r s1 Hs IH Hl E
                  |s rest r Hs IH Hl E|n ps s Hs IH Hl].
  - split; [intros t Ht; now apply elem_of_nil in Ht|discriminate].
  - pose proof (reachable_lock_inv s Hs) as [Hinv1 Hinv2].
    destruct (_action_lock s) eqn:Hl.
    + destruct (run_call_locked c s Hl) as (s' & E & L & _).
      unfold exec. rewrite (E _). simpl.
      destruct (hs_timer _ _ _ L (Hinv1 eq_refl)) as [Hag Ht].
      apply (timers_ok_of_frame s); auto.
      * exact (hs_next _ _ _ L).
      * intros t. now rewrite Ht.
    + destruct c as [fn fp bn bp d| | |]; simpl.
      * now apply push_action_timers_ok.
      * now apply group_actions_timers_ok.
      * assert (Hx : exec (undo_with (map_invoke m) >> ret tt) s
                     = exec (undo m) s).
        { unfold exec, undo, bind.
          now destruct (undo_with (map_invoke m) s) as [[b|e|] s']. }
        rewrite Hx. destruct (undo_timers m s) as [Hn Ht].
        apply (timers_ok_of_frame s); auto. apply undo_autogroup.
      * assert (Hx : exec (redo_with (map_invoke m) >> ret tt) s
                     = exec (redo m) s).
        { unfold exec, redo, bind.
          now destruct (redo_with (map_invoke m) s) as [[b|e|] s']. }
        rewrite Hx. destruct (decide (_undone s = [])) as [Hu|Hu].
        -- unfold exec, redo. now rewrite (redo_with_nothing _ s Hu).
        -- destruct (redo_timers m s (Hinv2 Hu)) as [Hn Ht].
           apply (timers_ok_of_frame s); auto.
           ++ intros t. now rewrite Ht.
           ++ now apply redo_autogroup, Hinv2.
  - unfold exec, fire, bind, gets. simpl.
    destruct (scheduled h s); simpl; [|exact IH].
    set (s0 := set_timeouts (filter (fun t => fst t <> h) (timeouts s)) s).
    change (timers_ok (exec group_actions s0)).
    apply (timers_ok_of_frame s); auto.
    + unfold exec. destruct (_action_lock s0) eqn:Hl0.
      * now rewrite group_actions_locked.
      * now rewrite group_actions_unlocked.
    + intros t. rewrite group_actions_timeouts. unfold s0. simpl.
      intros Ht. now apply list_elem_of_filter in Ht.
    + apply group_actions_autogroup.
  - destruct (undo_select_frame s) as (sel & s1' & E' & _ & Hag & _).
    rewrite E in E'. injection E' as _ <-.
    destruct (undo_select_timers _ _ _ E) as [Hn Ht].
    now apply (timers_ok_of_frame s).
  - exact IH.
  - exact IH.
Qed.

Lemma handle_fresh_aux s h :
  reachable s ->
  _autogroup s = Some h ->
  scheduled h s = true /\ (h < next_handle s)%nat.
Proof.
  intros Hr Hh. destruct (reachable_timers_ok s Hr) as [H1 H2].
  pose proof (H2 h Hh) as Hs. split; [exact Hs|].
  apply scheduled_elem in Hs. destruct Hs as (d & Hin).
  exact (H1 _ Hin).
Qed.

(** X5.  In every reachable state the handle kept in [_autogroup] is the
    handle of a timeout that is still scheduled, and it was handed out
    before the next handle the runtime will give: [clearTimeout] in
    [push_action] and [undo] always cancels a pending timeout. *)
Theorem handle_on_record_is_scheduled s h :
  reachable s ->
  _autogroup s = Some h ->
  scheduled h s = true /\ (h < next_handle s)%nat.
Proof.
  intros Hr Hh. now apply handle_fresh_aux.
Qed.

Lemma handle_on_record_is_scheduled_witness :
  reachable armed /\ _autogroup armed = Some 1%nat /\
  scheduled 1 armed = true /\ (1 < next_handle armed)%nat.
Proof.
  assert (Hr : reachable armed).
  { exact (reach_call idle
             (CallPush "set_x" [Num 1] "set_x" [Num 0] (Some 500))
             init reach_init). }
  split; [exact Hr|]. split; [reflexivity|].
  exact (handle_on_record_is_scheduled armed 1%nat Hr eq_refl).
Defined.

(** What [push_action] does to the timeouts, with the lock clear. *)
Lemma push_action_arms fn fp bn bp delay s :
  _action_lock s = false ->
  let s1 := exec (push_action fn fp bn bp (Some delay)) s in
  _autogroup s1 = Some (next_handle s) /\
  next_handle s1 = S (next_handle s) /\
  timeouts s1 =
    match _autogroup s with
    | Some h0 => filter (fun t => fst t <> h0) (timeouts s)
    | None => timeouts s
    end ++ [(next_handle s, delay)].
Proof.
  intros Hl s1. subst s1. unfold exec, push_action, bind, gets. simpl.
  rewrite Hl. simpl. now destruct (_autogroup s).
Qed.

Lemma push_action_keeps_timer fn fp bn bp s :
  let s1 := exec (push_action fn fp bn bp None) s in
  _autogroup s1 = _autogroup s /\ timeouts s1 = timeouts s /\
  next_handle s1 = next_handle s.
Proof.
  intros s1. subst s1. unfold exec, push_action, bind, gets. simpl.
  now destruct (_action_lock s).
Qed.

Lemma scheduled_filter_out h s tm :
  timeouts s = filter (fun t => fst t <> h) tm -> scheduled h s = false.
Proof.
  intros E. destruct (scheduled h s) eqn:Hs; [|reflexivity].
  apply scheduled_elem in Hs. destruct Hs as (d & Hin).
  rewrite E in Hin. apply list_elem_of_filter in Hin. simpl in Hin.
  now destruct Hin as [Hne _].
Qed.

(** X7.  With the lock clear and a timeout on record, [push_action] with a
    delay cancels that timeout and arms a new one: the old handle is no
    longer scheduled and can no longer fire, the new handle is scheduled
    and on record.  Without a delay [push_action] leaves the handle and the
    scheduled timeouts as they are. *)
Theorem push_action_rearms_timer fn fp bn bp delay s h0 :
  reachable s ->
  _action_lock s = false ->
  _autogroup s = Some h0 ->
  let s1 := exec (push_action fn fp bn bp (Some delay)) s in
  let s2 := exec (push_action fn fp bn bp None) s in
  (_autogroup s1 = Some (next_handle s) /\
   scheduled (next_handle s) s1 = true /\
   scheduled h0 s1 = false /\
   fire h0 s1 = (Return tt, s1)) /\
  (_autogroup s2 = Some h0 /\ timeouts s2 = timeouts s).
Proof.
  intros Hr Hl Hh s1 s2.
  destruct (handle_fresh_aux s h0 Hr Hh) as [Hs Hlt].
  destruct (push_action_arms fn fp bn bp delay s Hl) as (Ha & Hn & Ht).
  fold s1 in Ha, Hn, Ht. rewrite Hh in Ht.
  assert (Hout : scheduled h0 s1 = false).
  { unfold scheduled. rewrite Ht, existsb_app. simpl.
    apply orb_false_iff. split.
    - apply (scheduled_filter_out h0
               (set_timeouts (filter (fun t => fst t <> h0) (timeouts s)) s)
               (timeouts s)). reflexivity.
    - rewrite orb_false_r. apply Nat.eqb_neq. lia. }
  split.
  - split; [exact Ha|]. split.
    + unfold scheduled. rewrite Ht, existsb_app. simpl.
      rewrite Nat.eqb_refl. now rewrite orb_true_r.
    + split; [exact Hout|].
      unfold fire, bind, gets. simpl. now rewrite Hout.
  - destruct (push_action_keeps_timer fn fp bn bp s) as (Ha2 & Ht2 & _).
    fold s2 in Ha2, Ht2. split; congruence.
Qed.

Lemma push_action_rearms_timer_witness :
  reachable armed /\ _action_lock armed = false /\
  _autogroup armed = Some 1%nat /\
  let s1 := exec (push_action "set_y" [Num 2] "set_y" [Num 0] (Some 250))
              armed in
  let s2 := exec (push_action "set_y" [Num 2] "set_y" [Num 0] None) armed in
  (_autogroup s1 = Some 2%nat /\
   scheduled 2 s1 = true /\
   scheduled 1 s1 = false /\
   fire 1 s1 = (Return tt, s1)) /\
  (_autogroup s2 = Some 1%nat /\ timeouts s2 = timeouts armed).
Proof.
  assert (Hr : reachable armed).
  { exact (reach_call idle
             (CallPush "set_x" [Num 1] "set_x" [Num 0] (Some 500))
             init reach_init). }
  split; [exact Hr|]. split; [reflexivity|]. split; [reflexivity|].
  exact (push_action_rearms_timer "set_y" [Num 2] "set_y" [Num 0] 250
           armed 1%nat Hr eq_refl eq_refl).
Defined.

Lemma undo_after_prelude m s s0 :
  undo_prelude s = (Return tt, s0) ->
  _autogroup s0 = None ->
  undo m s = undo m s0.
Proof.
  intros E Hag.
  assert (Es : undo_select s = undo_select s0).
  { rewrite (undo_select_eq _ _ E).
    now rewrite (undo_select_eq _ _ (undo_prelude_None s0 Hag)). }
  unfold undo, undo_with.
  change (bind undo_select ?k s) with
    (match undo_select s with
     | (Return a, s') => k a s'
     | (Throw e, s') => (Throw e, s')
     | (Stuck, s') => (Stuck, s')
     end).
  now rewrite Es.
Qed.

(** X8.  In a reachable state with a timeout on record, [undo()] does
    exactly what it would do had that timeout fired just before the call
    (lines 110-114: cancel the timeout and group now). *)
Theorem undo_with_timer_is_fire_then_undo m s h :
  reachable s ->
  _autogroup s = Some h ->
  undo m s = (fire h >> undo m) s.
Proof.
  intros Hr Hh. destruct (handle_fresh_aux s h Hr Hh) as [Hs _].
  set (s0 := exec group_actions
               (set_timeouts (filter (fun t => fst t <> h) (timeouts s)) s)).
  assert (Eg : group_actions
                 (set_timeouts (filter (fun t => fst t <> h) (timeouts s)) s)
               = (Return tt, s0)).
  { unfold s0, exec.
    destruct (_action_lock s) eqn:Hl.
    - now rewrite group_actions_locked.
    - now rewrite group_actions_unlocked. }
  assert (Hag0 : _autogroup s0 = None) by apply group_actions_autogroup.
  assert (Ep : undo_prelude s = (Return tt, s0)).
  { unfold undo_prelude.
    rewrite (bind_Return _ _ s (Some h) s) by (unfold gets; now rewrite Hh).
    unfold clearTimeout.
    now rewrite (bind_Return _ _ s tt
                   (set_timeouts (filter (fun t => fst t <> h) (timeouts s)) s))
      by reflexivity. }
  assert (Ef : fire h s = (Return tt, s0)).
  { unfold fire.
    rewrite (bind_Return _ _ s true s) by (unfold gets; now rewrite Hs).
    unfold clearTimeout.
    now rewrite (bind_Return _ _ s tt
                   (set_timeouts (filter (fun t => fst t <> h) (timeouts s)) s))
      by reflexivity. }
  rewrite (bind_Return _ _ _ _ _ Ef).
  now apply undo_after_prelude.
Qed.

Lemma undo_with_timer_is_fire_then_undo_witness :
  reachable armed /\ _autogroup armed = Some 1%nat /\
  undo recording armed = (fire 1 >> undo recording) armed /\
  invoked (exec (undo recording) armed) = [("set_x", [Num 0])] /\
  _action_groups (exec (undo recording) armed) = [] /\
  _undone (exec (undo recording) armed) = [0%nat] /\
  scheduled 1 (exec (undo recording) armed) = false.
Proof.
  assert (Hr : reachable armed).
  { exact (reach_call idle
             (CallPush "set_x" [Num 1] "set_x" [Num 0] (Some 500))
             init reach_init). }
  split; [exact Hr|]. split; [reflexivity|]. split.
  - exact (undo_with_timer_is_fire_then_undo recording armed 1%nat Hr eq_refl).
  - vm_compute. repeat split.
Defined.

Lemma group_actions_commits s :
  _action_lock s = false ->
  let s1 := exec group_actions s in
  group_actions s = (Return tt, s1) /\
  _action_groups s1 = _action_groups s ++ [_actions s] /\
  (forall r, deref s1 r = deref s r) /\
  _actions s1 = length (store s) /\
  pending s1 = [] /\
  _undone s1 = [] /\ _autogroup s1 = None /\
  invoked s1 = invoked s /\ _action_lock s1 = false /\
  timeouts s1 = timeouts s.
Proof.
  intros Hl s1. subst s1. unfold exec.
  rewrite group_actions_unlocked by assumption. simpl.
  repeat split; auto.
  - intros r. apply (deref_fresh s r).
  - unfold pending, deref. simpl. rewrite lookup_app_r by lia.
    now rewrite Nat.sub_diag.
Qed.

(** X9.  With the lock clear, [group_actions()] moves the pending array,
    with the actions it holds, onto the committed stack and gives
    [_actions] a new, empty array: the store grows by one empty array, at
    an index no array had before, and [_actions] is that index; no array
    changes its contents.  In a reachable state the new array is no entry
    of the committed or of the undone stack.  The undone stack is emptied,
    so a [redo()] right after it does nothing. *)
Theorem group_actions_commits_and_forecloses_redo m s :
  _action_lock s = false ->
  let s1 := exec group_actions s in
  group_actions s = (Return tt, s1) /\
  _action_groups s1 = _action_groups s ++ [_actions s] /\
  (forall r, deref s1 r = deref s r) /\
  pending s1 = [] /\
  (live s -> _actions s1 <> _actions s) /\
  _undone s1 = [] /\
  redo m s1 = (Return true, s1) /\
  _actions s1 = length (store s) /\
  store s1 = store s ++ [[]] /\
  (reachable s ->
   (_actions s1 ∉ _action_groups s1) /\ (_actions s1 ∉ _undone s1)).
Proof.
  intros Hl s1.
  destruct (group_actions_commits s Hl)
    as (H1 & H2 & H3 & H4 & H5 & H6 & _).
  fold s1 in H1, H2, H3, H4, H5, H6.
  assert (Hst : store s1 = store s ++ [[]]).
  { unfold s1, exec. now rewrite group_actions_unlocked. }
  split; [exact H1|]. split; [exact H2|]. split; [exact H3|].
  split; [exact H5|]. split; [unfold live; lia|]. split; [exact H6|].
  split; [unfold redo; now apply redo_with_nothing|].
  split; [exact H4|]. split; [exact Hst|].
  intros Hr. destruct (reachable_allocated s Hr) as (Ha & Hg & _).
  rewrite H2, H4, H6. split; [|apply not_elem_of_nil].
  rewrite not_elem_of_app, not_elem_of_cons. unfold live in Ha.
  split; [|split; [lia|apply not_elem_of_nil]].
  intros Hin. rewrite Forall_forall in Hg. specialize (Hg _ Hin). lia.
Qed.

Lemma group_actions_commits_and_forecloses_redo_witness :
  _action_lock pushed_A_undone = false /\
  live pushed_A_undone /\
  reachable pushed_A_undone /\
  _undone pushed_A_undone = [0%nat] /\
  store pushed_A_undone = [[action_A]] /\
  let s1 := exec group_actions pushed_A_undone in
  _action_groups s1 = [0%nat] /\
  deref s1 0 = [action_A] /\
  pending s1 = [] /\
  _actions s1 <> _actions pushed_A_undone /\
  _undone s1 = [] /\
  redo idle s1 = (Return true, s1) /\
  _actions s1 = 1%nat /\
  store s1 = [[action_A]; []] /\
  (_actions s1 ∉ _action_groups s1) /\ (_actions s1 ∉ _undone s1).
Proof.
  assert (Hlive : live pushed_A_undone) by (vm_compute; lia).
  assert (Hr : reachable pushed_A_undone).
  { unfold pushed_A_undone, pushed_A. apply reach_undo, reach_push, reach_init. }
  split; [reflexivity|]. split; [exact Hlive|]. split; [exact Hr|].
  split; [reflexivity|]. split; [reflexivity|].
  destruct (group_actions_commits_and_forecloses_redo idle pushed_A_undone eq_refl)
    as (_ & H2 & H3 & H4 & H5 & H6 & H7 & H8 & H9 & H10).
  intros s1. split; [exact H2|]. split; [exact (H3 0%nat)|].
  split; [exact H4|]. split; [exact (H5 Hlive)|]. split; [exact H6|].
  split; [exact H7|]. split; [exact H8|]. split; [exact H9|exact (H10 Hr)].
Defined.

(** ** Exact states, for handlers that do not call back *)

Lemma silent_total_trace m side (l : list IHistoricAction) :
  (forall a, a ∈ l ->
     raises (m (name (side a)) (parameters (side a))) = None) ->
  replay_trace m (map side l) = (map invocation_of (map side l), None).
Proof. apply replay_trace_unit_total. Qed.

Lemma undo_pending_silent m s :
  silent m ->
  _action_lock s = false -> _autogroup s = None -> pending s <> [] ->
  let tr := replay_trace m (map backward (pending s)) in
  undo m s =
  after_replay (outcome_of (snd tr))
    (fun s' => set_undone (_undone s' ++ [_actions s]) s')
    (set_invoked (invoked s ++ fst tr) s).
Proof.
  intros Hm Hl Hag Hp tr.
  exact (undo_silent m s s (_actions s) Hm (undo_select_pending s Hag Hp) Hl).
Qed.

Lemma undo_group_silent m s gs r :
  silent m ->
  _action_lock s = false -> _autogroup s = None -> pending s = [] ->
  _action_groups s = gs ++ [r] ->
  let tr := replay_trace m (map backward (reverse (deref s r))) in
  undo m s =
  after_replay (outcome_of (snd tr))
    (fun s' => set_undone (_undone s' ++ [r]) s')
    (set_invoked (invoked s ++ fst tr)
       (set_store (alter reverse r (store s)) (set_action_groups gs s))).
Proof.
  intros Hm Hl Hag Hp Hg tr.
  pose proof (undo_silent m s _ r Hm (undo_select_group s gs r Hag Hp Hg) Hl)
    as E. simpl in E.
  change (deref (set_store (alter reverse r (store s))
                   (set_action_groups gs s)) r)
    with (deref (set_store (alter reverse r (store s)) s) r) in E.
  rewrite deref_reverse in E. case_decide; [|congruence]. exact E.
Qed.

Lemma push_action_effect fn fp bn bp d s :
  _action_lock s = false -> live s ->
  let s1 := exec (push_action fn fp bn bp d) s in
  _action_lock s1 = false /\ live s1 /\
  _actions s1 = _actions s /\ _action_groups s1 = _action_groups s /\
  _undone s1 = [] /\ invoked s1 = invoked s /\
  pending s1 =
    pending s ++ [mkAction (mkDescriptor fn fp) (mkDescriptor bn bp)].
Proof.
  intros Hl Hlive s1.
  pose proof (push_action_pending fn fp bn bp d s Hl Hlive) as Hp.
  fold s1 in Hp. unfold s1, exec in *.
  destruct (push_action_unlocked fn fp bn bp d s Hl)
    as (s' & E & Hl' & Hu & Ha & Hg & Hi & Hst).
  rewrite E in *. simpl in *. repeat split; auto.
  unfold live in *. now rewrite Ha, Hst, length_alter.
Qed.

(** X6.  Auto-grouping.  From a reachable state with the lock clear, a
    [push_action] with a delay followed by one without leaves one timeout
    scheduled and on record; when it fires, everything pending, the two
    new actions last, becomes one committed group, the pending buffer is
    empty and no timeout is left.  With handlers that neither call back
    nor fail, one [undo()] then takes back the whole group, last action
    first. *)
Theorem autogroup_commits_one_group m s fn1 fp1 bn1 bp1 delay fn2 fp2 bn2 bp2 :
  reachable s ->
  _action_lock s = false ->
  let h := next_handle s in
  let a1 := mkAction (mkDescriptor fn1 fp1) (mkDescriptor bn1 bp1) in
  let a2 := mkAction (mkDescriptor fn2 fp2) (mkDescriptor bn2 bp2) in
  let s1 := exec (push_action fn1 fp1 bn1 bp1 (Some delay)) s in
  let s2 := exec (push_action fn2 fp2 bn2 bp2 None) s1 in
  let s3 := exec (fire h) s2 in
  (_autogroup s2 = Some h /\ scheduled h s2 = true /\
   pending s2 = pending s ++ [a1; a2] /\
   _action_groups s2 = _action_groups s) /\
  (_action_groups s3 = _action_groups s ++ [_actions s] /\
   deref s3 (_actions s) = pending s ++ [a1; a2] /\
   pending s3 = [] /\
   _autogroup s3 = None /\ scheduled h s3 = false) /\
  (silent m -> (forall n ps, raises (m n ps) = None) ->
   result (undo m) s3 = Return true /\
   invoked (exec (undo m) s3) =
     invoked s ++
     map invocation_of (map backward (reverse (pending s ++ [a1; a2]))) /\
   _action_groups (exec (undo m) s3) = _action_groups s).
Proof.
  intros Hr Hl h a1 a2 s1 s2 s3.
  pose proof (reachable_live s Hr) as Hlive.
  destruct (push_action_effect fn1 fp1 bn1 bp1 (Some delay) s Hl Hlive)
    as (Hl1 & Hlive1 & Ha1 & Hg1 & _ & Hi1 & Hp1).
  destruct (push_action_arms fn1 fp1 bn1 bp1 delay s Hl) as (Hag1 & _ & Ht1).
  fold s1 in Hl1, Hlive1, Ha1, Hg1, Hi1, Hp1, Hag1, Ht1.
  destruct (push_action_effect fn2 fp2 bn2 bp2 None s1 Hl1 Hlive1)
    as (Hl2 & Hlive2 & Ha2 & Hg2 & _ & Hi2 & Hp2).
  destruct (push_action_keeps_timer fn2 fp2 bn2 bp2 s1) as (Hag2 & Ht2 & _).
  fold s2 in Hl2, Hlive2, Ha2, Hg2, Hi2, Hp2, Hag2, Ht2.
  assert (Hs2 : scheduled h s2 = true).
  { unfold scheduled. rewrite Ht2, Ht1, existsb_app. simpl.
    fold h. rewrite Nat.eqb_refl. now rewrite orb_true_r. }
  assert (Hp2' : pending s2 = pending s ++ [a1; a2]).
  { rewrite Hp2, Hp1, <- app_assoc. reflexivity. }
  set (s2' := set_timeouts (filter (fun t => fst t <> h) (timeouts s2)) s2).
  assert (Es3 : s3 = exec group_actions s2').
  { unfold s3, exec, fire.
    rewrite (bind_Return _ _ s2 true s2) by (unfold gets; now rewrite Hs2).
    unfold clearTimeout.
    now rewrite (bind_Return _ _ s2 tt s2') by reflexivity. }
  destruct (group_actions_commits s2' Hl2)
    as (_ & Hg3 & Hd3 & _ & Hp3 & Hu3 & Hag3 & Hi3 & Hl3 & Ht3).
  rewrite <- Es3 in Hg3, Hd3, Hp3, Hu3, Hag3, Hi3, Hl3, Ht3.
  simpl in Hg3. rewrite Hg2, Hg1, Ha2, Ha1 in Hg3.
  assert (Hd3' : deref s3 (_actions s) = pending s ++ [a1; a2]).
  { rewrite Hd3. rewrite <- Hp2'. unfold pending. now rewrite Ha2, Ha1. }
  split; [|split].
  - rewrite Hag2, Hag1, Hg2, Hg1. auto.
  - repeat split; auto.
    apply (scheduled_filter_out h s3 (timeouts s2)). exact Ht3.
  - intros Hm Hok.
    pose proof (undo_group_silent m s3 _ _ Hm Hl3 Hag3 Hp3 Hg3) as E.
    simpl in E. rewrite Hd3' in E.
    rewrite silent_total_trace in E by (intros; apply Hok).
    simpl in E. unfold result, exec. rewrite E. simpl.
    rewrite Hi3. simpl. rewrite Hi2, Hi1. auto.
Qed.

Lemma autogroup_commits_one_group_witness :
  reachable init /\ _action_lock init = false /\
  let s1 := exec (push_action "set_x" [Num 1] "set_x" [Num 0] (Some 500))
              init in
  let s2 := exec (push_action "set_y" [Num 2] "set_y" [Num 0] None) s1 in
  let s3 := exec (fire 1) s2 in
  (_autogroup s2 = Some 1%nat /\ scheduled 1 s2 = true) /\
  (_action_groups s3 = [0%nat] /\
   deref s3 0 = [action_A; action_B] /\
   pending s3 = [] /\
   _autogroup s3 = None /\ scheduled 1 s3 = false) /\
  result (undo idle) s3 = Return true /\
  invoked (exec (undo idle) s3) = [("set_y", [Num 0]); ("set_x", [Num 0])].
Proof.
  split; [exact reach_init|]. split; [reflexivity|].
  destruct (autogroup_commits_one_group idle init
              "set_x" [Num 1] "set_x" [Num 0] 500
              "set_y" [Num 2] "set_y" [Num 0] reach_init eq_refl)
    as ((H1 & H2 & _) & H3 & H4).
  destruct (H4 (fun _ _ => eq_refl) (fun _ _ => eq_refl)) as (H5 & H6 & _).
  intros s1 s2 s3. split; [exact (conj H1 H2)|].
  split; [exact H3|]. split; [exact H5|exact H6].
Defined.

Lemma exec_eq {A} (c : M A) s o s' : c s = (o, s') -> exec c s = s'.
Proof. intros E. unfold exec. now rewrite E. Qed.

(** X10.  [undo()] then [redo()] of the pending buffer, with the lock
    clear, no timeout on record and handlers that neither call back nor
    fail: the backward descriptors are invoked first to last, then the
    forward descriptors first to last; the committed stack is untouched by
    the [undo], and the [redo] commits the very array that [_actions]
    still names, its contents unchanged.  A [push_action] after that
    therefore grows the pending buffer and that committed group alike. *)
Theorem pending_undo_redo_commits_pending_array m s :
  silent m ->
  _action_lock s = false ->
  _autogroup s = None ->
  pending s <> [] ->
  (forall a, a ∈ pending s ->
     raises (m (name (backward a)) (parameters (backward a))) = None /\
     raises (m (name (forward a)) (parameters (forward a))) = None) ->
  let B := map invocation_of (map backward (pending s)) in
  let F := map invocation_of (map forward (pending s)) in
  let s1 := set_undone (_undone s ++ [_actions s])
              (set_invoked (invoked s ++ B) s) in
  let s2 := set_action_groups (_action_groups s ++ [_actions s])
              (set_invoked (invoked s ++ B ++ F) s) in
  undo m s = (Return true, s1) /\
  redo m s1 = (Return true, s2) /\
  (forall fn fp bn bp d,
     let s3 := exec (push_action fn fp bn bp d) s2 in
     let a := mkAction (mkDescriptor fn fp) (mkDescriptor bn bp) in
     pending s3 = pending s ++ [a] /\
     exists gs, _action_groups s3 = gs ++ [_actions s3] /\
                deref s3 (_actions s3) = pending s ++ [a]).
Proof.
  intros Hm Hl Hag Hp Hok B F s1 s2.
  assert (Eu : undo m s = (Return true, s1)).
  { rewrite (undo_pending_silent m s Hm Hl Hag Hp).
    rewrite silent_total_trace by (intros a Ha; apply (Hok a Ha)).
    reflexivity. }
  assert (Er : redo m s1 = (Return true, s2)).
  { rewrite (redo_silent m s1 (_undone s) (_actions s) Hm eq_refl Hl).
    change (deref s1 (_actions s)) with (pending s).
    rewrite silent_total_trace by (intros a Ha; apply (Hok a Ha)).
    simpl. unfold s2, set_action_groups, set_invoked, set_undone. simpl.
    fold B F. now rewrite <- app_assoc. }
  split; [exact Eu|]. split; [exact Er|].
  intros fn fp bn bp d s3 a.
  assert (Hlive : live s2) by (apply (pending_live s Hp)).
  destruct (push_action_effect fn fp bn bp d s2 Hl Hlive)
    as (_ & _ & Ha3 & Hg3 & _ & _ & Hp3).
  fold s3 in Ha3, Hg3, Hp3. fold a in Hp3.
  change (pending s2) with (pending s) in Hp3.
  split; [exact Hp3|].
  exists (_action_groups s). split; [now rewrite Hg3, Ha3|exact Hp3].
Qed.

Lemma pending_undo_redo_commits_pending_array_witness :
  silent idle /\
  _action_lock scenario_pushed = false /\
  _autogroup scenario_pushed = None /\
  pending scenario_pushed <> [] /\
  invoked (exec (undo idle) scenario_pushed) =
    [("set_x", [Num 0]); ("set_y", [Num 0])] /\
  (let s1 := exec (undo idle) scenario_pushed in
   let s2 := exec (redo idle) s1 in
   let s3 := exec (push_action "set_z" [Num 3] "set_z" [Num 0] None) s2 in
   invoked s2 = invoked s1 ++ [("set_x", [Num 1]); ("set_y", [Num 2])] /\
   _action_groups s2 = [0%nat] /\ _actions s2 = 0%nat /\
   pending s3 =
     [action_A; action_B;
      mkAction (mkDescriptor "set_z" [Num 3]) (mkDescriptor "set_z" [Num 0])] /\
   exists gs, _action_groups s3 = gs ++ [_actions s3] /\
              deref s3 (_actions s3) =
                [action_A; action_B;
                 mkAction (mkDescriptor "set_z" [Num 3])
                   (mkDescriptor "set_z" [Num 0])]).
Proof.
  assert (Hm : silent idle) by (intros n ps; reflexivity).
  assert (Hp : pending scenario_pushed <> []) by (vm_compute; discriminate).
  destruct (pending_undo_redo_commits_pending_array idle scenario_pushed
              Hm eq_refl eq_refl Hp (fun a _ => conj eq_refl eq_refl))
    as (Eu & Er & Hpush).
  split; [exact Hm|]. split; [reflexivity|]. split; [reflexivity|].
  split; [exact Hp|]. split; [reflexivity|].
  intros s1 s2 s3. split; [reflexivity|]. split; [reflexivity|].
  split; [reflexivity|].
  unfold s3, s2, s1.
  rewrite (exec_eq _ _ _ _ Eu), (exec_eq _ _ _ _ Er).
  exact (Hpush "set_z" [Num 3] "set_z" [Num 0] None).
Defined.



Lemma alter_reverse_twice (st : list (list IHistoricAction)) r :
  alter reverse r (alter reverse r st) = st.
Proof.
  apply list_eq. intros i. destruct (decide (r = i)) as [->|Hne].
  - rewrite !list_lookup_alter_eq.
    destruct (st !! i) as [l|]; simpl; [|reflexivity].
    now rewrite reverse_involutive.
  - now rewrite !list_lookup_alter_ne.
Qed.

(** One [undo()] and [redo()] of the committed group on top, for handlers
    that neither call back nor fail. *)
Lemma group_round_trip_silent m s gs r :
  silent m ->
  _action_lock s = false -> _autogroup s = None -> pending s = [] ->
  _action_groups s = gs ++ [r] ->
  (forall a, a ∈ deref s r ->
     raises (m (name (backward a)) (parameters (backward a))) = None /\
     raises (m (name (forward a)) (parameters (forward a))) = None) ->
  let g' := reverse (deref s r) in
  result (undo m) s = Return true /\
  redo m (exec (undo m) s) =
  (Return true,
   set_invoked
     (invoked s ++ map invocation_of (map backward g')
                ++ map invocation_of (map forward g'))
     (set_store (alter reverse r (store s)) s)).
Proof.
  intros Hm Hl Hag Hp Hg Hok g'.
  assert (Hok' : forall a, a ∈ g' ->
            raises (m (name (backward a)) (parameters (backward a))) = None /\
            raises (m (name (forward a)) (parameters (forward a))) = None).
  { intros a Ha. apply Hok. unfold g' in Ha. now rewrite elem_of_reverse in Ha. }
  pose proof (undo_group_silent m s gs r Hm Hl Hag Hp Hg) as Eu.
  simpl in Eu. fold g' in Eu.
  rewrite silent_total_trace in Eu by (intros a Ha; apply (Hok' a Ha)).
  simpl in Eu. unfold result, exec. rewrite Eu. simpl. split; [reflexivity|].
  match goal with |- redo m ?s1 = _ =>
    pose proof (redo_silent m s1 (_undone s) r Hm eq_refl Hl) as Er
  end.
  simpl in Er.
  match type of Er with context [deref ?s1 r] =>
    change (deref s1 r) with
      (deref (set_store (alter reverse r (store s)) s) r) in Er
  end.
  rewrite deref_reverse in Er. case_decide; [|congruence]. fold g' in Er.
  rewrite silent_total_trace in Er by (intros a Ha; apply (Hok' a Ha)).
  simpl in Er. rewrite Er. f_equal.
  destruct s. simpl in *. subst. unfold set_action_groups, set_invoked,
    set_undone, set_store. simpl. now rewrite <- app_assoc.
Qed.

(** X13.  With handlers that neither call back nor fail, one [undo()] and
    [redo()] of the committed group on top leave the state as it was but
    for the invocations made and for the order of the group, which is
    reversed; a second [undo()] and [redo()] reverse it again: after two
    round trips the state is the first one, but for the invocations. *)
Theorem two_round_trips_restore_group m s gs r :
  silent m ->
  _action_lock s = false ->
  _autogroup s = None ->
  pending s = [] ->
  _action_groups s = gs ++ [r] ->
  let g := deref s r in
  (forall a, a ∈ g ->
     raises (m (name (backward a)) (parameters (backward a))) = None /\
     raises (m (name (forward a)) (parameters (forward a))) = None) ->
  let s2 := exec (redo m) (exec (undo m) s) in
  let s4 := exec (redo m) (exec (undo m) s2) in
  s2 = set_invoked
         (invoked s ++ map invocation_of (map backward (reverse g))
                    ++ map invocation_of (map forward (reverse g)))
         (set_store (alter reverse r (store s)) s) /\
  s4 = set_invoked
         (invoked s2 ++ map invocation_of (map backward g)
                     ++ map invocation_of (map forward g)) s.
Proof.
  intros Hm Hl Hag Hp Hg g Hok s2 s4.
  destruct (group_round_trip_silent m s gs r Hm Hl Hag Hp Hg Hok) as [_ E2].
  fold g in E2.
  assert (Es2 : s2 = set_invoked
            (invoked s ++ map invocation_of (map backward (reverse g))
                       ++ map invocation_of (map forward (reverse g)))
            (set_store (alter reverse r (store s)) s))
    by (unfold s2; exact (exec_eq _ _ _ _ E2)).
  split; [exact Es2|].
  assert (Hd2 : deref s2 r = reverse g).
  { rewrite Es2.
    change (deref (set_store (alter reverse r (store s)) s) r = reverse g).
    rewrite deref_reverse. now case_decide. }
  assert (Hp2 : pending s2 = []).
  { rewrite Es2.
    change (deref (set_store (alter reverse r (store s)) s) (_actions s) = []).
    rewrite deref_reverse. unfold pending in Hp. case_decide; now rewrite Hp. }
  destruct (group_round_trip_silent m s2 gs r Hm) as [_ E4].
  { now rewrite Es2. }
  { now rewrite Es2. }
  { exact Hp2. }
  { now rewrite Es2. }
  { intros a Ha. apply Hok. rewrite Hd2 in Ha.
    now rewrite elem_of_reverse in Ha. }
  rewrite Hd2, reverse_involutive in E4.
  unfold s4. rewrite (exec_eq _ _ _ _ E4).
  match goal with |- set_invoked ?l _ = _ => generalize l end.
  intros l. rewrite Es2. unfold set_invoked, set_store. simpl.
  now rewrite alter_reverse_twice.
Qed.

Lemma two_round_trips_restore_group_witness :
  silent idle /\
  _action_lock scenario_grouped = false /\
  _autogroup scenario_grouped = None /\
  pending scenario_grouped = [] /\
  _action_groups scenario_grouped = [] ++ [0%nat] /\
  let s2 := exec (redo idle) (exec (undo idle) scenario_grouped) in
  let s4 := exec (redo idle) (exec (undo idle) s2) in
  deref scenario_grouped 0 = [action_A; action_B] /\
  deref s2 0 = [action_B; action_A] /\
  s4 = set_invoked
         [("set_y", [Num 0]); ("set_x", [Num 0]);
          ("set_y", [Num 2]); ("set_x", [Num 1]);
          ("set_x", [Num 0]); ("set_y", [Num 0]);
          ("set_x", [Num 1]); ("set_y", [Num 2])] scenario_grouped.
Proof.
  assert (Hm : silent idle) by (intros n ps; reflexivity).
  split; [exact Hm|]. split; [reflexivity|]. split; [reflexivity|].
  split; [reflexivity|]. split; [reflexivity|].
  destruct (two_round_trips_restore_group idle scenario_grouped [] 0%nat
              Hm eq_refl eq_refl eq_refl eq_refl
              (fun a _ => conj eq_refl eq_refl)) as [H2 H4].
  intros s2 s4. split; [reflexivity|]. split; [reflexivity|].
  exact H4.
Defined.

(** ** What handlers record during a replay *)

Lemma run_calls_recording inner cs s :
  Forall recording_call cs ->
  _action_lock s = true -> _autogroup s = None ->
  run_calls inner cs s = (Return tt, s).
Proof.
  intros Hcs Hl Hag. induction Hcs as [|c cs Hc _ IH]; [reflexivity|].
  simpl. destruct c as [fn fp bn bp d| | |]; simpl in Hc; try contradiction.
  - now rewrite (bind_Return _ _ _ _ _ (push_action_locked fn fp bn bp d s Hl)).
  - rewrite (bind_Return _ _ _ _ _ (group_actions_locked s Hl)).
    now rewrite (set_autogroup_same s Hag).
Qed.

Lemma replay_trace_mute m ds : replay_trace (mute m) ds = replay_trace m ds.
Proof.
  induction ds as [|d ds IH]; [reflexivity|]. simpl. now rewrite IH.
Qed.

Lemma forEach_from_inert m side r :
  inert m ->
  forall n k s,
    _action_lock s = true -> _autogroup s = None ->
    let tr := replay_trace m (map side (take n (drop k (deref s r)))) in
    forEach_from r (callback (map_invoke m) side) k n s =
    (outcome_of (snd tr), set_invoked (invoked s ++ fst tr) s).
Proof.
  intros Hm. induction n as [|n IH]; intros k s Hl Hag tr; subst tr.
  - rewrite take_0. simpl. unfold ret. rewrite app_nil_r. now destruct s.
  - simpl forEach_from.
    destruct (deref s r !! k) as [a|] eqn:Ea.
    + rewrite (bind_Return _ _ s (Some a) s)
        by (unfold array_get, gets; now rewrite Ea).
      rewrite (drop_lookup_Some _ _ _ Ea). simpl.
      set (i := (name (side a), parameters (side a))).
      assert (Eh : callback (map_invoke m) side a s =
                   (outcome_of (raises (m (name (side a)) (parameters (side a)))),
                    set_invoked (invoked s ++ [i]) s)).
      { unfold callback, map_invoke. simpl. unfold run_handler.
        rewrite (bind_Return _ _ s tt (set_invoked (invoked s ++ [i]) s))
          by reflexivity.
        rewrite (bind_Return _ _ _ tt (set_invoked (invoked s ++ [i]) s))
          by (apply run_calls_recording; [apply Hm|exact Hl|exact Hag]).
        now destruct (raises _). }
      destruct (raises (m (name (side a)) (parameters (side a)))) as [e|].
      * now rewrite (bind_Throw _ _ _ _ _ Eh).
      * rewrite (bind_Return _ _ _ _ _ Eh).
        specialize (IH (S k) (set_invoked (invoked s ++ [i]) s) Hl Hag).
        simpl in IH.
        change (deref (set_invoked (invoked s ++ [i]) s) r) with (deref s r)
          in IH.
        rewrite IH. destruct (replay_trace _ _) as [tr o]. simpl.
        now rewrite set_invoked_twice, <- app_assoc.
    + rewrite (bind_Return _ _ s None s)
        by (unfold array_get, gets; now rewrite Ea).
      rewrite (bind_Return _ _ s tt s) by reflexivity.
      rewrite (drop_lookup_None _ _ Ea), take_nil. simpl.
      specialize (IH (S k) s Hl Hag). simpl in IH.
      rewrite (drop_lookup_None (deref s r) (S k)) in IH
        by (apply lookup_ge_None; apply lookup_ge_None in Ea; lia).
      rewrite take_nil in IH. exact IH.
Qed.

Lemma replay_inert m side r s :
  inert m -> _autogroup s = None ->
  replay (map_invoke m) r side s = replay (map_invoke (mute m)) r side s.
Proof.
  intros Hm Hag. destruct (_action_lock s) eqn:Hl.
  - now rewrite !replay_locked.
  - rewrite (replay_silent (mute m) side r s) by (auto; intros n ps; reflexivity).
    rewrite replay_trace_mute.
    unfold replay.
    rewrite (bind_Return _ _ s false s) by (unfold gets; now rewrite Hl).
    rewrite (bind_Return _ _ s tt (set_action_lock true s)) by reflexivity.
    unfold try_finally, forEach.
    rewrite (bind_Return _ _ _ (length (deref s r)) (set_action_lock true s))
      by reflexivity.
    change (fun action => _) with (callback (map_invoke m) side).
    rewrite (forEach_from_inert m side r Hm _ _ (set_action_lock true s)
               eq_refl Hag).
    change (deref (set_action_lock true s) r) with (deref s r).
    rewrite drop_0, firstn_all.
    unfold modify. destruct s. simpl in *. subst.
    now destruct (snd (replay_trace m _)).
Qed.

(** X11.  What handlers record during a replay is not recorded.  When
    the handlers call back only [push_action] and [group_actions],
    [undo()] ends exactly as it would had they called nothing: same
    result, same pending buffer, same stacks, same timeouts, same
    invocations.  So does [redo()] when no timeout is on record, as is the
    case in every reachable state in which something can be redone. *)
Theorem replay_ignores_recording_handlers m s :
  inert m ->
  undo m s = undo (mute m) s /\
  (_autogroup s = None -> redo m s = redo (mute m) s) /\
  (reachable s -> redo m s = redo (mute m) s).
Proof.
  intros Hm.
  assert (Hredo : _autogroup s = None -> redo m s = redo (mute m) s).
  { intros Hag. unfold redo.
    destruct (pop_cases (_undone s)) as [[E _]|(rest & r & E & _)].
    - now rewrite !(redo_with_nothing _ _ E).
    - rewrite !(redo_with_replay _ _ _ _ E).
      now rewrite (replay_inert m forward r (set_undone rest s) Hm Hag). }
  split; [|split; [exact Hredo|]].
  - unfold undo.
    destruct (undo_select_frame s) as ([r|] & s1 & E & _ & Hag & _).
    + rewrite !(undo_with_replay _ _ _ _ E).
      now rewrite (replay_inert m backward r s1 Hm Hag).
    + now rewrite !(undo_with_nothing _ _ _ E).
  - intros Hr. destruct (decide (_undone s = [])) as [Hu|Hu].
    + unfold redo. now rewrite !(redo_with_nothing _ _ Hu).
    + apply Hredo. exact (proj2 (reachable_lock_inv s Hr) Hu).
Qed.

Lemma replay_ignores_recording_handlers_witness :
  inert recording /\
  undo recording scenario_grouped = undo (mute recording) scenario_grouped /\
  pending (exec (undo recording) scenario_grouped) = [] /\
  _autogroup scenario_undone = None /\
  redo recording scenario_undone = redo (mute recording) scenario_undone /\
  pending (exec (redo recording) scenario_undone) = [].
Proof.
  assert (Hm : inert recording).
  { intros n ps. repeat constructor. }
  destruct (replay_ignores_recording_handlers recording scenario_grouped Hm)
    as (Hu & _).
  destruct (replay_ignores_recording_handlers recording scenario_undone Hm)
    as (_ & Hr & _).
  split; [exact Hm|]. split; [exact Hu|]. split; [reflexivity|].
  split; [reflexivity|]. split; [exact (Hr eq_refl)|reflexivity].
Defined.

(** X14.  A timeout that fires with the lock clear commits the pending
    buffer and empties the undone stack: a [redo()] after it does
    nothing, whatever had been undone before. *)
Theorem firing_timeout_forecloses_redo m s h :
  scheduled h s = true ->
  _action_lock s = false ->
  let s1 := exec (fire h) s in
  fire h s = (Return tt, s1) /\
  _action_groups s1 = _action_groups s ++ [_actions s] /\
  _undone s1 = [] /\
  scheduled h s1 = false /\
  redo m s1 = (Return true, s1).
Proof.
  intros Hs Hl s1.
  set (s0 := set_timeouts (filter (fun t => fst t <> h) (timeouts s)) s).
  destruct (group_actions_commits s0 Hl)
    as (E & Hg & _ & _ & _ & Hu & _ & _ & _ & Ht).
  assert (Ef : fire h s = (Return tt, exec group_actions s0)).
  { unfold fire.
    rewrite (bind_Return _ _ s true s) by (unfold gets; now rewrite Hs).
    unfold clearTimeout.
    now rewrite (bind_Return _ _ s tt s0) by reflexivity. }
  assert (Es1 : s1 = exec group_actions s0) by (exact (exec_eq _ _ _ _ Ef)).
  rewrite <- Es1 in Ef, Hg, Hu, Ht.
  split; [exact Ef|]. split; [exact Hg|]. split; [exact Hu|]. split.
  - exact (scheduled_filter_out h s1 (timeouts s) Ht).
  - unfold redo. now apply redo_with_nothing.
Qed.

Lemma firing_timeout_forecloses_redo_witness :
  scheduled 1 armed_grouped_undone = true /\
  _action_lock armed_grouped_undone = false /\
  _undone armed_grouped_undone = [0%nat] /\
  _autogroup armed_grouped_undone = None /\
  fire 1 armed_grouped_undone = (Return tt, armed_grouped_undone_fired) /\
  _action_groups armed_grouped_undone_fired = [1%nat] /\
  deref armed_grouped_undone_fired 1 = [] /\
  _undone armed_grouped_undone_fired = [] /\
  redo idle armed_grouped_undone_fired =
    (Return true, armed_grouped_undone_fired).
Proof.
  destruct (firing_timeout_forecloses_redo idle armed_grouped_undone 1%nat
              eq_refl eq_refl) as (H1 & H2 & H3 & _ & H5).
  split; [reflexivity|]. split; [reflexivity|]. split; [reflexivity|].
  split; [reflexivity|]. split; [exact H1|]. split; [exact H2|].
  split; [reflexivity|]. split; [exact H3|exact H5].
Defined.
